(** * Poker trainer: the flop evaluator, decision engine and spot generator

    A shallow embedding of [poker-trainer.tsx] (card helpers, the
    trainer-level flop evaluator, the decision engine, [genSpot], the
    multiple-choice sets and the scoring of the component) and the
    properties its specification states about them, followed by further
    properties of the code.

    Conventions of the model.
    - A JS [number] that the program only ever uses as an integer (rank
      values, counts, outs, pot and bet sizes) is a [Z] or, for a count or
      a length, a [nat].
    - A JS [number] that holds a percentage is a binary64 [float], computed
      with the kernel's IEEE 754 operations, as the JS engine does.
    - A JS [Map] is a [gmap]; its iteration order is only ever consumed by
      order-insensitive reductions (count, some, max).
    - A JS [Set] is a duplicate-free list in insertion order.
    - Labels are [string]s, as in the source.
    - Arrays that are copied or written to live in a store; the values of
      [Math.random()] come from an explicit sequence of rationals.
    - The component is the record of the values of its [useState] cells; a
      handler maps the state of the render it is called from to the state
      once its queued updates are applied. *)

From Stdlib Require Import ZArith QArith Qround Floats String Ascii.
From stdpp Require Import base decidable option list sorting gmap strings.

Local Open Scope string_scope.
Local Open Scope list_scope.
Local Open Scope Z_scope.

(** ** Card helpers *)

Inductive Rank : Set :=
  | R2 | R3 | R4 | R5 | R6 | R7 | R8 | R9 | RT | RJ | RQ | RK | RA.

Inductive Suit : Set := Spades | Hearts | Diamonds | Clubs.

Definition RANKS : list Rank :=
  [R2; R3; R4; R5; R6; R7; R8; R9; RT; RJ; RQ; RK; RA].

Definition SUITS : list Suit := [Spades; Hearts; Diamonds; Clubs].

#[global] Instance Rank_eq_dec : EqDecision Rank.
Proof. solve_decision. Defined.

#[global] Instance Suit_eq_dec : EqDecision Suit.
Proof. solve_decision. Defined.

Definition rankIndex (r : Rank) : nat :=
  match r with
  | R2 => 0 | R3 => 1 | R4 => 2 | R5 => 3 | R6 => 4 | R7 => 5 | R8 => 6
  | R9 => 7 | RT => 8 | RJ => 9 | RQ => 10 | RK => 11 | RA => 12
  end%nat.

Definition suitIndex (s : Suit) : nat :=
  match s with Spades => 0 | Hearts => 1 | Diamonds => 2 | Clubs => 3 end%nat.

#[global] Instance Rank_countable : Countable Rank :=
  inj_countable rankIndex (fun n => RANKS !! n) ltac:(by intros []).

#[global] Instance Suit_countable : Countable Suit :=
  inj_countable suitIndex (fun n => SUITS !! n) ltac:(by intros []).

Definition rankStr (r : Rank) : string :=
  match r with
  | R2 => "2" | R3 => "3" | R4 => "4" | R5 => "5" | R6 => "6" | R7 => "7"
  | R8 => "8" | R9 => "9" | RT => "T" | RJ => "J" | RQ => "Q" | RK => "K"
  | RA => "A"
  end.

(** The suit glyphs of the source, as their UTF-8 bytes. *)
Definition suitStr (s : Suit) : string :=
  match s with
  | Spades => "♠" | Hearts => "♥" | Diamonds => "♦" | Clubs => "♣"
  end.

Record PlayingCard : Set := mkCard { rank : Rank; suit : Suit; id : string }.

#[global] Instance PlayingCard_eq_dec : EqDecision PlayingCard.
Proof. solve_decision. Defined.

(** [{ rank, suit, id: `${rank}${suit}` }] *)
Definition card (r : Rank) (s : Suit) : PlayingCard :=
  {| rank := r; suit := s; id := (rankStr r ++ suitStr s)%string |}.

(** [makeDeck]: suits outermost, ranks innermost, each card pushed once. *)
Definition makeDeck : list PlayingCard :=
  foldl (fun deck s => foldl (fun deck r => deck ++ [card r s]) deck RANKS)
        [] SUITS.

(** [Array.prototype.indexOf]: the first index holding [x], or -1. *)
Fixpoint indexOf {A} `{EqDecision A} (l : list A) (x : A) : Z :=
  match l with
  | [] => -1
  | y :: l' =>
      if decide (y = x) then 0
      else let i := indexOf l' x in if decide (i = -1) then -1 else i + 1
  end.

Definition rankValue (r : Rank) : Z := indexOf RANKS r.

(** ** Minimal flop evaluator *)

Record EvalResult : Set := mkEval {
  bestHandLabel : string;
  drawLabel : string;
  outs : Z;
  improvementOuts : Z
}.

(** [m.set(k, (m.get(k) ?? 0) + 1)] for every card. *)
Definition bump `{Countable K} (m : gmap K nat) (k : K) : gmap K nat :=
  <[k := (default 0 (m !! k) + 1)%nat]> m.

Definition countByRank (cards : list PlayingCard) : gmap Rank nat :=
  foldl (fun m c => bump m (rank c)) ∅ cards.

Definition countBySuit (cards : list PlayingCard) : gmap Suit nat :=
  foldl (fun m c => bump m (suit c)) ∅ cards.

(** [Array.from(m.values())] *)
Definition mapValues `{Countable K} (m : gmap K nat) : list nat :=
  (map_to_list m).*2.

(** [Set.prototype.add] on a set kept as its insertion-ordered elements. *)
Definition setAdd (s : list Z) (v : Z) : list Z :=
  if decide (v ∈ s) then s else s ++ [v].

(** [Set.prototype.delete] *)
Definition setDelete (s : list Z) (v : Z) : list Z :=
  filter (fun x => x ≠ v) s.

(** [sort((a, b) => a - b)] *)
Definition sortAsc (l : list Z) : list Z := merge_sort Z.le l.

(** [sort((a, b) => b - a)] *)
Definition sortDesc (l : list nat) : list nat := merge_sort (flip le) l.

Definition uniqueSortedRankVals (cards : list PlayingCard) : list Z :=
  sortAsc (foldl (fun set c => setAdd set (rankValue (rank c))) [] cards).

Record PairTripsQuads : Set := mkPTQ { pairs : nat; trips : nat; quads : nat }.

Definition hasPairTripsQuads (cards : list PlayingCard) : PairTripsQuads :=
  let byRank := countByRank cards in
  let counts := sortDesc (mapValues byRank) in
  {| pairs := length (filter (fun c => c = 2%nat) counts);
     trips := length (filter (fun c => c = 3%nat) counts);
     quads := length (filter (fun c => c = 4%nat) counts) |}.

Definition isMadeFlush (cards : list PlayingCard) : bool :=
  let bySuit := countBySuit cards in
  existsb (fun v => bool_decide (5 ≤ v)%nat) (mapValues bySuit).

(** Ace low as -1, appended when an Ace (value 12) is present, then sorted. *)
Definition withWheel (vals : list Z) : list Z :=
  sortAsc (if decide (12 ∈ vals) then vals ++ [-1] else vals).

(** The run-counting loop of [isMadeStraight], from index [i] on: [prev] is
    [valsWithWheel[i - 1]] and [l] holds [valsWithWheel[i ..]]. *)
Fixpoint straightScan (prev : Z) (run : nat) (l : list Z) : bool :=
  match l with
  | [] => false
  | v :: l' =>
      if decide (v = prev + 1) then
        if decide (5 ≤ S run)%nat then true else straightScan v (S run) l'
      else if decide (v ≠ prev) then straightScan v 1 l'
      else straightScan v run l'
  end.

Definition isMadeStraight (cards : list PlayingCard) : bool :=
  let vals := uniqueSortedRankVals cards in
  let valsWithWheel := withWheel vals in
  match valsWithWheel with
  | [] => false
  | v0 :: rest => straightScan v0 1 rest
  end.

Record StraightDraw : Set := mkDraw { oesd : bool; gutshot : bool }.

(** The pairs [(a[i], a[i+1 ..])], for [i] from 0 up. *)
Fixpoint picks (a : list Z) : list (Z * list Z) :=
  match a with
  | [] => []
  | x :: a' => (x, a') :: picks a'
  end.

(** The four nested loops [i < j < k < l] of [comb4]. *)
Definition comb4 (a : list Z) : list (list Z) :=
  '(x, ai) ← picks a;
  '(y, aj) ← picks ai;
  '(z, ak) ← picks aj;
  '(w, _) ← picks ak;
  [[x; y; z; w]].

(** [t = [...c].map((v) => (v === -1 ? 0 : v)).sort(...)] *)
Definition lowAce (c : list Z) : list Z :=
  sortAsc ((fun v => if decide (v = -1) then 0 else v) <$> c).

(** One iteration of the loop over [comb4(uniq)]. An index outside [t]
    reads [undefined], the span is then NaN and neither test holds. *)
Definition drawStep (st : StraightDraw) (c : list Z) : StraightDraw :=
  let t := lowAce c in
  match t !! 3%nat, t !! 0%nat with
  | Some t3, Some t0 =>
      let span := t3 - t0 in
      if decide (span = 3) then {| oesd := true; gutshot := gutshot st |}
      else if decide (span = 4) then
        let needed := foldl setAdd [] (seqZ t0 (t3 - t0 + 1)) in
        let needed := foldl setDelete needed t in
        if decide (length needed = 1%nat)
        then {| oesd := oesd st; gutshot := true |}
        else st
      else st
  | _, _ => st
  end.

Definition straightDrawType (hole flop : list PlayingCard) : StraightDraw :=
  let cards := hole ++ flop in
  let vals := uniqueSortedRankVals cards in
  let valsWithWheel := withWheel vals in
  let uniq := foldl setAdd [] valsWithWheel in
  foldl drawStep {| oesd := false; gutshot := false |} (comb4 uniq).

(** [Math.max(...xs)]; [None] is the -Infinity of an empty argument list. *)
Definition mathMax (xs : list nat) : option nat :=
  foldl (fun acc x => Some (match acc with None => x | Some y => Nat.max y x end))
        None xs.

Definition calcImprovementOuts (bestHandLabel : string) : Z :=
  if decide (bestHandLabel = "High Card") then 6
  else if decide (bestHandLabel = "One Pair") then 5
  else if decide (bestHandLabel = "Two Pair") then 4
  else if decide (bestHandLabel = "Three of a Kind") then 7
  else if decide (bestHandLabel = "Full House") then 1
  else 0.

(** The truth value of a count used as a condition: nonzero. *)
Definition truthy (n : nat) : bool := bool_decide (n ≠ 0%nat).

Definition Hole : Set := PlayingCard * PlayingCard.
Definition Flop : Set := PlayingCard * PlayingCard * PlayingCard.

(** [[...hole]] and [[...flop]] *)
Definition holeCards (hole : Hole) : list PlayingCard := [hole.1; hole.2].
Definition flopCards (flop : Flop) : list PlayingCard :=
  [flop.1.1; flop.1.2; flop.2].

Definition evalOnFlop (hole : Hole) (flop : Flop) : EvalResult :=
  let cards := holeCards hole ++ flopCards flop in
  let ptq := hasPairTripsQuads cards in
  let madeFlush := isMadeFlush cards in
  let madeStraight := isMadeStraight cards in
  let bestHandLabel :=
    if madeFlush && madeStraight then "Straight Flush"
    else if truthy (quads ptq) then "Four of a Kind"
    else if truthy (trips ptq) && truthy (pairs ptq) then "Full House"
    else if madeFlush then "Flush"
    else if madeStraight then "Straight"
    else if truthy (trips ptq) then "Three of a Kind"
    else if decide (2 ≤ pairs ptq)%nat then "Two Pair"
    else if decide (pairs ptq = 1%nat) then "One Pair"
    else "High Card" in
  let flushCounts := countBySuit cards in
  let maxSuit := mathMax (mapValues flushCounts) in
  let isFlushDraw := bool_decide (maxSuit = Some 4%nat) in
  let sd := straightDrawType (holeCards hole) (flopCards flop) in
  let draw : Z * string :=
    if negb madeFlush && negb madeStraight then
      if isFlushDraw && oesd sd then (15, "Combo Draw (Flush + Straight)")
      else if isFlushDraw then (9, "Flush Draw")
      else if oesd sd then (8, "Open-Ended Straight Draw")
      else if gutshot sd then (4, "Gutshot Straight Draw")
      else (0, "None")
    else (0, "None") in
  let improvementOuts := calcImprovementOuts bestHandLabel in
  {| bestHandLabel := bestHandLabel; drawLabel := draw.2;
     outs := draw.1; improvementOuts := improvementOuts |}.

(** ** Pot odds, equity and the decision engine *)

(** The binary64 number holding the integer [z] (exact below 2^53). *)
Definition num (z : Z) : float := SF2Prim (binary_normalize prec emax z 0 false).

Definition potOddsPct (pot callAmt : Z) : float :=
  (num callAmt / num (pot + callAmt) * 100)%float.

Definition approxEquityFromOuts (outs : Z) : Z := Z.min 100 (outs * 4).

Inductive Decision : Set := Fold | Call | Raise.

Definition strongMadeLabels : list string :=
  ["Two Pair"; "Three of a Kind"; "Straight"; "Flush"; "Full House";
   "Four of a Kind"; "Straight Flush"].

Definition recommendDecision (bestHand : string) (outs : Z) (reqPct : float)
  : Decision :=
  let strongMade := bool_decide (bestHand ∈ strongMadeLabels) in
  if strongMade then Raise
  else
    let equity := approxEquityFromOuts outs in
    if decide (15 ≤ outs) then Raise
    else if (reqPct <=? num (equity + 2))%float then Call
    else Fold.

(** [Math.round]: the integer nearest to [x], a tie going toward +Infinity;
    NaN, the infinities and the zeros are returned as they are, and a
    negative [x] rounding to zero gives -0. A finite [x] is [n * 2^e]. *)
Definition mathRound (x : float) : float :=
  match Prim2SF x with
  | S754_finite s m e =>
      let n := if s then Z.neg m else Z.pos m in
      let r := if decide (0 ≤ e) then n * 2 ^ e
               else (2 * n + 2 ^ (- e)) `div` 2 ^ (1 - e) in
      if decide (r = 0) then (if s then (-0)%float else 0%float) else num r
  | _ => x
  end.

(** ** Spot generator *)

Inductive Mode : Set := HAND | OUTS | DECISION.

#[global] Instance Mode_eq_dec : EqDecision Mode.
Proof. solve_decision. Defined.

(** [Spot.solution], without its two display texts ([decisionWhy] and
    [explainer]), which are formatted from the fields kept here. *)
Module Sol.
Record t : Set := mk {
  bestHandLabel : string;
  drawLabel : string;
  outs : Z;
  improvementOuts : Z;
  potOddsPct : float;
  decision : Decision
}.
End Sol.

Record Spot : Set := mkSpot {
  hole : Hole;
  flop : Flop;
  pot : Z;
  betToCall : Z;
  solution : Sol.t
}.

(** *** Arrays and the random source

    Arrays live in a store and are named by their address, so that a
    function that receives an array and one that copies it can be told
    apart. [Math.random()] hands out the values of a fixed sequence [rnd],
    each taken by its real value, and [Math.floor(Math.random() * n)] is
    the floor of the exact product; the binary64 product is rounded, which
    keeps the floor within 0 .. n - 1 all the same. A computation fails
    ([None]) when it reads or writes an index outside an array, where JS
    would produce [undefined] or grow the array. *)

Section Effects.
Context {T : Type}.
Variable rnd : nat → Q.

Record World := mkWorld { arrays : list (list T); drawn : nat }.

Definition M (A : Type) : Type := World → option (A * World).

#[global] Instance M_ret : MRet M := fun A x w => Some (x, w).

#[global] Instance M_bind : MBind M := fun A B f m w =>
  match m w with Some (x, w') => f x w' | None => None end.

(** An optional value: [undefined] stops the computation. *)
Definition defined {A} (o : option A) : M A :=
  fun w => match o with Some x => Some (x, w) | None => None end.

(** [Math.random()] *)
Definition mathRandom : M Q :=
  fun w => Some (rnd (drawn w), {| arrays := arrays w; drawn := S (drawn w) |}).

(** A new array holding [xs]. *)
Definition newArray (xs : list T) : M nat :=
  fun w => Some (length (arrays w),
                 {| arrays := arrays w ++ [xs]; drawn := drawn w |}).

(** The elements of the array at [a], as for a spread [[...a]]. *)
Definition elementsOf (a : nat) : M (list T) :=
  fun w => match arrays w !! a with Some xs => Some (xs, w) | None => None end.

(** [a.length] *)
Definition lengthOf (a : nat) : M nat :=
  fun w => match arrays w !! a with
           | Some xs => Some (length xs, w)
           | None => None
           end.

(** [a[i]] *)
Definition getAt (a : nat) (i : Z) : M T :=
  fun w => match arrays w !! a with
           | Some xs =>
               if decide (0 ≤ i) then
                 match xs !! Z.to_nat i with
                 | Some x => Some (x, w)
                 | None => None
                 end
               else None
           | None => None
           end.

(** [a[i] = v] *)
Definition setAt (a : nat) (i : Z) (v : T) : M unit :=
  fun w => match arrays w !! a with
           | Some xs =>
               if decide (0 ≤ i < Z.of_nat (length xs)) then
                 Some (tt, {| arrays := <[a := <[Z.to_nat i := v]> xs]> (arrays w);
                              drawn := drawn w |})
               else None
           | None => None
           end.

End Effects.

Arguments World : clear implicits.
Arguments M : clear implicits.

(** [Math.floor(Math.random() * n)] *)
Definition randomBelow {T} (rnd : nat → Q) (n : Z) : M T Z :=
  u ← mathRandom rnd; mret (Qfloor (u * inject_Z n)).

(** The loop of [shuffle], for [i] down to 1. *)
Fixpoint shuffleLoop {T} (rnd : nat → Q) (a : nat) (i : nat) : M T unit :=
  match i with
  | O => mret tt
  | S i' =>
      j ← randomBelow rnd (Z.of_nat i + 1);
      aj ← getAt a j;
      ai ← getAt a (Z.of_nat i);
      setAt a (Z.of_nat i) aj;;
      setAt a j ai;;
      shuffleLoop rnd a i'
  end.

Definition shuffle {T} (rnd : nat → Q) (arr : nat) : M T nat :=
  xs ← elementsOf arr;
  a ← newArray xs;
  n ← lengthOf a;
  shuffleLoop rnd a (n - 1);;
  mret a.

Definition potSizes : list Z := [40; 50; 60; 80; 100; 120].
Definition betSizes : list Z := [10; 15; 20; 25; 30].

(** [xs[i]] on an array literal. *)
Definition pick (xs : list Z) (i : Z) : option Z :=
  if decide (0 ≤ i) then xs !! Z.to_nat i else None.

Definition genSpot (rnd : nat → Q) (mode : Mode) : M PlayingCard Spot :=
  d ← newArray makeDeck;
  deck ← shuffle rnd d;
  c0 ← getAt deck 0;
  c1 ← getAt deck 1;
  c2 ← getAt deck 2;
  c3 ← getAt deck 3;
  c4 ← getAt deck 4;
  let hole := (c0, c1) in
  let flop := (c2, c3, c4) in
  i ← randomBelow rnd 6;
  pot ← defined (pick potSizes i);
  k ← randomBelow rnd 5;
  betToCall ← defined (pick betSizes k);
  let pot := if decide (mode = HAND ∨ mode = OUTS) then 0 else pot in
  let betToCall :=
    if decide (mode = HAND ∨ mode = OUTS) then 0 else betToCall in
  let ev := evalOnFlop hole flop in
  let reqPct :=
    if decide (betToCall ≠ 0) then potOddsPct pot betToCall else 0%float in
  let decision :=
    if decide (mode = DECISION)
    then recommendDecision (bestHandLabel ev) (outs ev) reqPct
    else Call in
  let finalDecision := if decide (mode = DECISION) then decision else Call in
  mret {| hole := hole; flop := flop; pot := pot; betToCall := betToCall;
          solution :=
            {| Sol.bestHandLabel := bestHandLabel ev;
               Sol.drawLabel := drawLabel ev;
               Sol.outs := outs ev;
               Sol.improvementOuts := improvementOuts ev;
               Sol.potOddsPct := (mathRound (reqPct * 10) / 10)%float;
               Sol.decision := finalDecision |} |}.

(** The program starts with no array allocated and no number drawn. *)
Definition startWorld {T} : World T := {| arrays := []; drawn := 0 |}.

(** ** The trainer's screen *)

(** ** The answer options of the trainer *)

Definition HAND_OPTIONS : list string :=
  ["High Card"; "One Pair"; "Two Pair"; "Three of a Kind"; "Straight";
   "Flush"; "Full House"; "Four of a Kind"; "Straight Flush"].

Definition DRAW_OPTIONS : list string :=
  ["None"; "Flush Draw"; "Open-Ended Straight Draw"; "Gutshot Straight Draw";
   "Combo Draw (Flush + Straight)"].

Definition DECISION_OPTIONS : list string := ["Fold"; "Call"; "Raise"].

(** ** Text helpers

    The strings of the trainer are option labels and the empty string, all
    ASCII; on ASCII text the three functions below are those of JS
    ([trim] removes the white space characters 9 to 13 and 32,
    [toLowerCase] maps A..Z to a..z). *)

Definition isWhiteSpace (a : ascii) : bool :=
  let n := nat_of_ascii a in
  bool_decide (9 ≤ n ≤ 13)%nat || bool_decide (n = 32%nat).

Fixpoint trimStart (s : string) : string :=
  match s with
  | EmptyString => EmptyString
  | String a s' => if isWhiteSpace a then trimStart s' else s
  end.

Fixpoint trimEnd (s : string) : string :=
  match s with
  | EmptyString => EmptyString
  | String a s' =>
      match trimEnd s' with
      | EmptyString => if isWhiteSpace a then EmptyString else String a EmptyString
      | t => String a t
      end
  end.

(** [String.prototype.trim] *)
Definition trim (s : string) : string := trimEnd (trimStart s).

Definition lowerChar (a : ascii) : ascii :=
  let n := nat_of_ascii a in
  if bool_decide (65 ≤ n ≤ 90)%nat then ascii_of_nat (n + 32) else a.

(** [String.prototype.toLowerCase] *)
Fixpoint toLowerCase (s : string) : string :=
  match s with
  | EmptyString => EmptyString
  | String a s' => String (lowerChar a) (toLowerCase s')
  end.

Definition normalize (s : string) : string := toLowerCase (trim s).

(** [String.prototype.includes]: [sub] occurs in [s] at some position. *)
Fixpoint includes (s sub : string) : bool :=
  String.prefix sub s ||
  match s with
  | EmptyString => false
  | String _ s' => includes s' sub
  end.

(** ** Multiple-choice sets *)

(** [uniq]: [Array.from(new Set(arr))], first occurrences in order. *)
Definition uniq (arr : list Z) : list Z := foldl setAdd [] arr.

Definition makeMCQNumbers (correct : Z) (deltas : list Z) (min max : Z)
  : list Z :=
  let opts :=
    filter (fun n => min ≤ n ∧ n ≤ max) ((fun d => correct + d) <$> deltas) in
  sortAsc (uniq (correct :: opts)).

(** The body of the [outsChoices] memo; [slice(0, 6)] copies the first six
    elements of the shuffled array. *)
Definition outsChoices (rnd : nat → Q) (mode : Mode) (solOuts : Z)
  : M Z (list Z) :=
  if decide (mode = HAND) then mret []
  else
    a0 ← newArray (makeMCQNumbers solOuts [-2; -1; 1; 2; 4] 0 20);
    a ← shuffle rnd a0;
    ys ← elementsOf a;
    mret (take 6 ys).

(** ** Scoring *)

Definition decisionStr (d : Decision) : string :=
  match d with Fold => "Fold" | Call => "Call" | Raise => "Raise" end.

Record ScoreResult : Set := mkScore {
  gained : Z;
  passed : bool;
  bestOk : bool;
  drawOk : bool;
  outsOk : bool;
  potOddsOk : bool;
  decisionOk : bool
}.

(** The state of the component: the values of its [useState] cells. *)
Module UI.
Record State : Set := mk {
  mode : Mode;
  spot : Spot;
  showSolution : bool;
  bestHand : string;
  drawType : string;
  outs : option Z;
  potOdds : option float;
  decision : string;
  xp : Z;
  streak : Z;
  round : Z;
  highContrast : bool;
  last : option ScoreResult
}.
End UI.

(** A non-empty string is truthy. *)
Definition nonEmpty (s : string) : bool :=
  match s with EmptyString => false | _ => true end.

Definition strEq (s t : string) : bool := bool_decide (s = t).

(** [score], as called from a render whose state is [st]: the result and
    the state once the queued updates ([setStreak], [setXp],
    [setShowSolution]) are applied. *)
Definition score (st : UI.State) : ScoreResult * UI.State :=
  let mode := UI.mode st in
  let sol := solution (UI.spot st) in
  let bh := normalize (UI.bestHand st) in
  let dt := normalize (UI.drawType st) in
  let bestSol := normalize (Sol.bestHandLabel sol) in
  let drawSol := normalize (Sol.drawLabel sol) in
  let bestOk :=
    nonEmpty bh &&
    (strEq bh bestSol || includes bh bestSol || includes bestSol bh ||
     (strEq bestSol "one pair" && includes bh "pair" &&
      negb (includes bh "two"))) in
  let drawOk :=
    if decide (mode = HAND) then true
    else if strEq drawSol "none"
      then strEq dt "" || strEq dt "none" || includes dt "none"
    else
      nonEmpty dt &&
      (includes dt drawSol || includes drawSol dt ||
       (includes drawSol "flush" && includes dt "flush") ||
       (includes drawSol "open" && includes dt "open") ||
       (includes drawSol "gutshot" && includes dt "gut") ||
       (includes drawSol "combo" &&
        (includes dt "combo" ||
         (includes dt "flush" && includes dt "straight")))) in
  let outsOk :=
    if decide (mode = HAND) then true
    else match UI.outs st with
         | Some outs => bool_decide (Z.abs (outs - Sol.outs sol) ≤ 1)
         | None => false
         end in
  let potOddsOk :=
    if decide (mode ≠ DECISION) then true
    else match UI.potOdds st with
         | Some potOdds =>
             (abs (potOdds - Sol.potOddsPct sol) <=? 2)%float
         | None => false
         end in
  let decisionOk :=
    if decide (mode ≠ DECISION) then true
    else strEq (normalize (UI.decision st))
               (normalize (decisionStr (Sol.decision sol))) in
  let gained := 0 in
  let gained := if bestOk then gained + 45 else gained in
  let gained := if drawOk then gained + 15 else gained in
  let gained := if outsOk then gained + 20 else gained in
  let gained := if potOddsOk then gained + 10 else gained in
  let gained := if decisionOk then gained + 10 else gained in
  let passed :=
    bool_decide
      ((if decide (mode = HAND) then 40
        else if decide (mode = OUTS) then 55 else 70) ≤ gained) in
  let streak' := if passed then UI.streak st + 1 else 0 in
  let gained :=
    if passed then gained + Z.min 20 ((UI.streak st + 1) * 2) else gained in
  ({| gained := gained; passed := passed; bestOk := bestOk; drawOk := drawOk;
      outsOk := outsOk; potOddsOk := potOddsOk; decisionOk := decisionOk |},
   {| UI.mode := UI.mode st; UI.spot := UI.spot st;
      UI.showSolution := true;
      UI.bestHand := UI.bestHand st; UI.drawType := UI.drawType st;
      UI.outs := UI.outs st; UI.potOdds := UI.potOdds st;
      UI.decision := UI.decision st;
      UI.xp := UI.xp st + gained; UI.streak := streak';
      UI.round := UI.round st; UI.highContrast := UI.highContrast st;
      UI.last := UI.last st |}).

(** The points of the five answers, before the streak bonus. *)
Definition basePoints (r : ScoreResult) : Z :=
  (if bestOk r then 45 else 0) + (if drawOk r then 15 else 0) +
  (if outsOk r then 20 else 0) + (if potOddsOk r then 10 else 0) +
  (if decisionOk r then 10 else 0).

Definition onCheck (st : UI.State) : UI.State :=
  if UI.showSolution st then st
  else
    let '(res, st') := score st in
    {| UI.mode := UI.mode st'; UI.spot := UI.spot st';
       UI.showSolution := UI.showSolution st';
       UI.bestHand := UI.bestHand st'; UI.drawType := UI.drawType st';
       UI.outs := UI.outs st'; UI.potOdds := UI.potOdds st';
       UI.decision := UI.decision st';
       UI.xp := UI.xp st'; UI.streak := UI.streak st';
       UI.round := UI.round st'; UI.highContrast := UI.highContrast st';
       UI.last := Some res |}.




(** [Math.floor(xp / 100) + 1] and [xp % 100]; the remainder of JS takes
    the sign of the dividend. *)
Definition level (st : UI.State) : Z := UI.xp st `div` 100 + 1.
Definition levelProgress (st : UI.State) : Z := UI.xp st `rem` 100.


(** The first render: a decision spot, no answer, no experience. *)
Definition initialState (rnd : nat → Q) : M PlayingCard UI.State :=
  s ← genSpot rnd DECISION;
  mret {| UI.mode := DECISION; UI.spot := s; UI.showSolution := false;
          UI.bestHand := ""; UI.drawType := ""; UI.outs := None;
          UI.potOdds := None; UI.decision := "";
          UI.xp := 0; UI.streak := 0; UI.round := 1;
          UI.highContrast := true; UI.last := None |}.

(** ** The pot-odds options *)







(** ** The documented behaviour

    The definitions of this part follow the words of the specification;
    the theorems below compare them with the code above. *)

(** How many of [cards] carry the key [k] (a rank or a suit). *)
Definition held {K} `{EqDecision K} (key : PlayingCard → K) (k : K)
    (cards : list PlayingCard) : nat :=
  length (filter (fun c => key c = k) cards).

(** How many of [cards] hold rank [r], and how many hold suit [s]. *)
Definition rankCount (r : Rank) (cards : list PlayingCard) : nat :=
  held rank r cards.

Definition suitCount (s : Suit) (cards : list PlayingCard) : nat :=
  held suit s cards.

(** The distinct rank values of [cards] (0 = Two .. 12 = Ace), with the
    synthetic low-Ace value -1 when an Ace is present. *)
Definition hasValue (cards : list PlayingCard) (v : Z) : Prop :=
  (∃ c, c ∈ cards ∧ rankValue (rank c) = v) ∨
  (v = -1 ∧ ∃ c, c ∈ cards ∧ rank c = RA).

(** Five consecutive values exist. *)
Definition straightMade (cards : list PlayingCard) : Prop :=
  ∃ k, ∀ i, 0 ≤ i < 5 → hasValue cards (k + i).

(** Some suit count is at least 5. *)
Definition flushMade (cards : list PlayingCard) : Prop :=
  ∃ s, (5 ≤ suitCount s cards)%nat.

Inductive HandCategory : Set :=
  | HighCard | OnePair | TwoPair | ThreeOfAKind | Straight | Flush
  | FullHouse | FourOfAKind | StraightFlush.

Definition label (h : HandCategory) : string :=
  match h with
  | HighCard => "High Card"
  | OnePair => "One Pair"
  | TwoPair => "Two Pair"
  | ThreeOfAKind => "Three of a Kind"
  | Straight => "Straight"
  | Flush => "Flush"
  | FullHouse => "Full House"
  | FourOfAKind => "Four of a Kind"
  | StraightFlush => "Straight Flush"
  end.

(** Strength of a category; the classifier checks the strongest first. *)
Definition tier (h : HandCategory) : nat :=
  match h with
  | HighCard => 0 | OnePair => 1 | TwoPair => 2 | ThreeOfAKind => 3
  | Straight => 4 | Flush => 5 | FullHouse => 6 | FourOfAKind => 7
  | StraightFlush => 8
  end.

(** What each category asks of the cards, precedence left aside. *)
Definition qualifies (cards : list PlayingCard) (h : HandCategory) : Prop :=
  match h with
  | StraightFlush => flushMade cards ∧ straightMade cards
  | FourOfAKind => ∃ r, rankCount r cards = 4%nat
  | FullHouse =>
      ∃ r1 r2, r1 ≠ r2 ∧ rankCount r1 cards = 3%nat ∧ rankCount r2 cards = 2%nat
  | Flush => flushMade cards
  | Straight => straightMade cards
  | ThreeOfAKind => ∃ r, rankCount r cards = 3%nat
  | TwoPair =>
      ∃ r1 r2, r1 ≠ r2 ∧ rankCount r1 cards = 2%nat ∧ rankCount r2 cards = 2%nat
  | OnePair => ∃ r, rankCount r cards = 2%nat
  | HighCard => True
  end.

(** The documented precedence: the strongest category that qualifies. *)
Definition classifiedAs (cards : list PlayingCard) (h : HandCategory) : Prop :=
  qualifies cards h ∧ ∀ h', (tier h < tier h')%nat → ¬ qualifies cards h'.

(** How many ranks are held exactly [n] times. *)
Definition ranksHeld (n : nat) (cards : list PlayingCard) : nat :=
  length (filter (fun r => rankCount r cards = n) RANKS).

(** *** Draws *)

(** Exactly 4 cards of one suit. *)
Definition flushDraw (cards : list PlayingCard) : Prop :=
  ∃ s, suitCount s cards = 4%nat.

Inductive DrawCategory : Set :=
  | NoDraw | FlushDraw | OpenEnded | Gutshot | ComboDraw.

Definition drawName (d : DrawCategory) : string :=
  match d with
  | NoDraw => "None"
  | FlushDraw => "Flush Draw"
  | OpenEnded => "Open-Ended Straight Draw"
  | Gutshot => "Gutshot Straight Draw"
  | ComboDraw => "Combo Draw (Flush + Straight)"
  end.

(** The outs table of the draws. *)
Definition drawOuts (d : DrawCategory) : Z :=
  match d with
  | ComboDraw => 15 | FlushDraw => 9 | OpenEnded => 8 | Gutshot => 4
  | NoDraw => 0
  end.

(** Combo (flush draw and OESD) > Flush Draw alone > OESD alone >
    Gutshot alone > None, on the flags of the straight-draw detector. *)
Definition displayedDraw (cards : list PlayingCard) (sd : StraightDraw)
    (d : DrawCategory) : Prop :=
  match d with
  | ComboDraw => flushDraw cards ∧ oesd sd = true
  | FlushDraw => flushDraw cards ∧ oesd sd = false
  | OpenEnded => ¬ flushDraw cards ∧ oesd sd = true
  | Gutshot => ¬ flushDraw cards ∧ oesd sd = false ∧ gutshot sd = true
  | NoDraw => ¬ flushDraw cards ∧ oesd sd = false ∧ gutshot sd = false
  end.

(** *** Improvement outs *)

(** The improvement-outs table; Four of a Kind, which the table does not
    list, gets the 0 of the last line. *)
Definition improvementTable (h : HandCategory) : Z :=
  match h with
  | HighCard => 6
  | OnePair => 5
  | TwoPair => 4
  | ThreeOfAKind => 7
  | FullHouse => 1
  | Straight | Flush | StraightFlush => 0
  | FourOfAKind => 0
  end.

(** *** The decision policy *)

(** Two Pair and every stronger category. *)
Definition strongCategories : list HandCategory :=
  [TwoPair; ThreeOfAKind; Straight; Flush; FullHouse; FourOfAKind;
   StraightFlush].

(** The policy, first matching rule first. The comparison of rule 3 is made
    on binary64 numbers, as the percentage is one. *)
Inductive decisionRule (bestHand : string) (outs : Z) (reqPct : float)
  : Decision → Prop :=
  | rule_strong :
      bestHand ∈ label <$> strongCategories →
      decisionRule bestHand outs reqPct Raise
  | rule_big_draw :
      bestHand ∉ label <$> strongCategories →
      15 ≤ outs →
      decisionRule bestHand outs reqPct Raise
  | rule_price :
      bestHand ∉ label <$> strongCategories →
      outs < 15 →
      (reqPct <=? num (Z.min 100 (outs * 4) + 2))%float = true →
      decisionRule bestHand outs reqPct Call
  | rule_fold :
      bestHand ∉ label <$> strongCategories →
      outs < 15 →
      (reqPct <=? num (Z.min 100 (outs * 4) + 2))%float = false →
      decisionRule bestHand outs reqPct Fold.

(** *** Straight draws *)

(** A 4-value subset [{a < b < c < d}] of the values [V]. *)
Definition fourOf (V : Z → Prop) (a b c d : Z) : Prop :=
  (a < b ∧ b < c ∧ c < d) ∧ V a ∧ V b ∧ V c ∧ V d.

(** Some 4-value subset has span [max - min = 3]. *)
Definition openEndedOn (V : Z → Prop) : Prop :=
  ∃ a b c d, fourOf V a b c d ∧ d - a = 3.

(** Some 4-value subset has span 4 with exactly one interior value
    missing. *)
Definition gutshotOn (V : Z → Prop) : Prop :=
  ∃ a b c d, fourOf V a b c d ∧ d - a = 4 ∧
    length (filter (fun v => v ∉ [a; b; c; d]) (seqZ a 5)) = 1%nat.

(** The distinct rank values with the low Ace counted as 0, the other
    reading of "with the low-Ace substitution applied". *)
Definition hasValueLowZero (cards : list PlayingCard) (v : Z) : Prop :=
  ∃ u, hasValue cards u ∧ v = (if decide (u = -1) then 0 else u).

(** *** A sample run *)

(** A sequence of draws to run the generator on: 0, 0.7, 0.4, 0.1, ... *)
Definition sampleDraws (n : nat) : Q := Z.of_nat (n * 7 mod 10) # 10.

(** A state to run the handlers on: an outs question on a hand with the
    combo draw, answered, not yet checked. *)
Definition sampleState : UI.State :=
  {| UI.mode := OUTS;
     UI.spot :=
       {| hole := (card RA Spades, card RK Spades);
          flop := (card RQ Spades, card RJ Spades, card R2 Hearts);
          pot := 0; betToCall := 0;
          solution :=
            {| Sol.bestHandLabel := "High Card";
               Sol.drawLabel := "Combo Draw (Flush + Straight)";
               Sol.outs := 15; Sol.improvementOuts := 6;
               Sol.potOddsPct := 0; Sol.decision := Call |} |};
     UI.showSolution := false; UI.bestHand := "High Card";
     UI.drawType := "Flush Draw"; UI.outs := Some 14; UI.potOdds := None;
     UI.decision := ""; UI.xp := 250; UI.streak := 12; UI.round := 4;
     UI.highContrast := true; UI.last := None |}.

(** * Properties *)

(** Case analysis on a membership in an explicit list, dropping the cases
    that arithmetic refutes. *)
Ltac cases_in H :=
  repeat (apply elem_of_cons in H as [H|H]; [try lia|]);
  try (by apply elem_of_nil in H).

(** ** Sets and sorting *)

Lemma elem_of_foldl_setAdd (l s : list Z) (v : Z) :
  v ∈ foldl setAdd s l ↔ v ∈ s ∨ v ∈ l.
Proof.
  revert s. induction l as [|x l IH]; intros s; simpl.
  - rewrite elem_of_nil. tauto.
  - rewrite IH, elem_of_cons. unfold setAdd.
    destruct (decide (x ∈ s)) as [Hx|Hx].
    + split; [tauto|]. intros [?|[->|?]]; auto.
    + rewrite elem_of_app, list_elem_of_singleton. tauto.
Qed.

Lemma NoDup_foldl_setAdd (l s : list Z) : NoDup s → NoDup (foldl setAdd s l).
Proof.
  revert s. induction l as [|x l IH]; intros s Hs; simpl; [done|].
  apply IH. unfold setAdd. destruct (decide (x ∈ s)); [done|].
  apply NoDup_app. split_and!; [done| |apply NoDup_singleton].
  intros y Hy ->%list_elem_of_singleton. done.
Qed.

Lemma foldl_setAdd_NoDup_id (l s : list Z) :
  NoDup (s ++ l) → foldl setAdd s l = s ++ l.
Proof.
  revert s. induction l as [|x l IH]; intros s Hs; simpl.
  - by rewrite app_nil_r.
  - unfold setAdd at 2. destruct (decide (x ∈ s)) as [Hx|Hx].
    + apply NoDup_app in Hs as (_ & Hs & _). exfalso. apply (Hs x Hx). left.
    + rewrite IH; rewrite <- app_assoc; done.
Qed.

Lemma sortAsc_perm (l : list Z) : sortAsc l ≡ₚ l.
Proof. apply merge_sort_Permutation. Qed.

Lemma elem_of_sortAsc (l : list Z) (v : Z) : v ∈ sortAsc l ↔ v ∈ l.
Proof. by rewrite sortAsc_perm. Qed.

Lemma StronglySorted_le_lt (l : list Z) :
  StronglySorted Z.le l → NoDup l → StronglySorted Z.lt l.
Proof.
  induction 1 as [|x l Hl IH Hx]; intros Hnd; constructor.
  - apply IH. by apply NoDup_cons in Hnd as [_ ?].
  - apply NoDup_cons in Hnd as [Hx' _].
    rewrite Forall_forall in Hx |- *. intros y Hy.
    assert (x ≠ y) by (intros ->; done).
    specialize (Hx y Hy). lia.
Qed.

Lemma sortAsc_strict (l : list Z) : NoDup l → StronglySorted Z.lt (sortAsc l).
Proof.
  intros Hnd. apply StronglySorted_le_lt.
  - apply (StronglySorted_merge_sort Z.le).
  - by rewrite sortAsc_perm.
Qed.

(** ** Rank values *)

Lemma rankValue_range (r : Rank) : 0 ≤ rankValue r ≤ 12.
Proof. destruct r; vm_compute; split; discriminate. Qed.

Lemma rankValue_ace (r : Rank) : rankValue r = 12 ↔ r = RA.
Proof. destruct r; vm_compute; split; (done || discriminate). Qed.

Lemma rankSet_fold (cards : list PlayingCard) :
  foldl (fun set c => setAdd set (rankValue (rank c))) [] cards
  = foldl setAdd [] ((fun c => rankValue (rank c)) <$> cards).
Proof. by rewrite foldl_fmap. Qed.

Lemma elem_of_uniqueSortedRankVals (cards : list PlayingCard) (v : Z) :
  v ∈ uniqueSortedRankVals cards ↔ ∃ c, c ∈ cards ∧ rankValue (rank c) = v.
Proof.
  unfold uniqueSortedRankVals.
  rewrite elem_of_sortAsc, rankSet_fold, elem_of_foldl_setAdd, elem_of_nil.
  rewrite list_elem_of_fmap. split.
  - intros [[]|(c & -> & Hc)]. eauto.
  - intros (c & Hc & <-). right. eauto.
Qed.

Lemma NoDup_uniqueSortedRankVals (cards : list PlayingCard) :
  NoDup (uniqueSortedRankVals cards).
Proof.
  unfold uniqueSortedRankVals. rewrite sortAsc_perm, rankSet_fold.
  apply NoDup_foldl_setAdd, NoDup_nil_2.
Qed.

Lemma NoDup_wheel_input (cards : list PlayingCard) :
  let vals := uniqueSortedRankVals cards in
  NoDup (if decide (12 ∈ vals) then vals ++ [-1] else vals).
Proof.
  intros vals. pose proof (NoDup_uniqueSortedRankVals cards) as Hnd.
  destruct (decide (12 ∈ vals)); [|done].
  apply NoDup_app. split_and!; [done| |apply NoDup_singleton].
  intros v Hv ->%list_elem_of_singleton.
  apply elem_of_uniqueSortedRankVals in Hv as (c & _ & Hc).
  pose proof (rankValue_range (rank c)). lia.
Qed.

Lemma elem_of_withWheel (cards : list PlayingCard) (v : Z) :
  v ∈ withWheel (uniqueSortedRankVals cards) ↔ hasValue cards v.
Proof.
  unfold withWheel, hasValue. rewrite elem_of_sortAsc.
  destruct (decide (12 ∈ uniqueSortedRankVals cards)) as [H12|H12].
  - rewrite elem_of_app, list_elem_of_singleton, elem_of_uniqueSortedRankVals.
    apply elem_of_uniqueSortedRankVals in H12 as (c & Hc & Hv).
    apply rankValue_ace in Hv. split.
    + intros [?|Hv1]; [by left|]. subst v. right; eauto.
    + intros [?|[Hv1 _]]; [by left|by right].
  - rewrite elem_of_uniqueSortedRankVals. split; [tauto|].
    intros [?|[_ (c & Hc & Hr)]]; [done|]. exfalso. apply H12.
    apply elem_of_uniqueSortedRankVals. exists c. split; [done|].
    by apply rankValue_ace.
Qed.

Lemma withWheel_strict (cards : list PlayingCard) :
  StronglySorted Z.lt (withWheel (uniqueSortedRankVals cards)).
Proof. apply sortAsc_strict, NoDup_wheel_input. Qed.

(** ** The run-counting loop *)

Lemma straightScan_spec (l : list Z) : ∀ (prev : Z) (run : nat),
  (1 ≤ run ≤ 4)%nat →
  StronglySorted Z.lt (prev :: l) →
  straightScan prev run l = true ↔
  ∃ k, ∀ i, 0 ≤ i < 5 → prev - Z.of_nat run < k + i ≤ prev ∨ k + i ∈ l.
Proof.
  induction l as [|v l IH]; intros prev run Hrun Hs; simpl.
  - split; [done|]. intros (k & Hk).
    destruct (Hk 0 ltac:(lia)) as [?|[]%elem_of_nil].
    destruct (Hk 4 ltac:(lia)) as [?|[]%elem_of_nil]. lia.
  - apply StronglySorted_inv in Hs as [Hs Hprev].
    pose proof Hs as Hs'. apply StronglySorted_inv in Hs' as [_ Hv].
    apply Forall_cons in Hprev as [Hpv Hprev].
    rewrite Forall_forall in Hprev, Hv.
    destruct (decide (v = prev + 1)) as [->|Hne].
    + destruct (decide (5 ≤ S run)%nat) as [H5|H5].
      * split; [intros _|done]. exists (prev - 3). intros i Hi.
        destruct (decide (i = 4)) as [->|]; [right|left; lia].
        replace (prev - 3 + 4) with (prev + 1) by lia. left.
      * rewrite IH by (done || lia).
        apply exist_proper. intros k. apply forall_proper. intros i.
        apply forall_proper. intros Hi. rewrite elem_of_cons.
        split; [intros [Hw|Hin]|intros [Hw|[Heq|Hin]]].
        -- destruct (decide (k + i = prev + 1)); [right; by left|left; lia].
        -- right; by right.
        -- left; lia.
        -- left; lia.
        -- by right.
    + destruct (decide (v ≠ prev)) as [_|Heq]; [|lia].
      rewrite IH by (done || lia).
      split; intros (k & Hk).
      * exists k. intros i Hi. right. rewrite elem_of_cons.
        destruct (Hk i Hi) as [?|?]; [left; lia|tauto].
      * exists k.
        assert (Hin : ∀ x, x ∈ v :: l → prev + 1 < x).
        { intros x [->|Hx]%elem_of_cons; [lia|]. specialize (Hv x Hx). lia. }
        assert (prev < k) as Hk0.
        { destruct (decide (prev < k)) as [|Hle]; [done|]. exfalso.
          destruct (Hk 0 ltac:(lia)) as [H0|H0%Hin]; [|lia].
          destruct (Hk (prev + 1 - k) ltac:(lia)) as [H1|H1%Hin]; lia. }
        intros i Hi. destruct (Hk i Hi) as [?|[->|?]%elem_of_cons]; [lia| |tauto].
        left. lia.
Qed.

(** The scan finds a run exactly when five consecutive values exist. *)
Lemma isMadeStraight_iff (cards : list PlayingCard) :
  isMadeStraight cards = true ↔ straightMade cards.
Proof.
  unfold isMadeStraight, straightMade.
  pose proof (withWheel_strict cards) as Hs.
  pose proof (elem_of_withWheel cards) as Hmem.
  destruct (withWheel (uniqueSortedRankVals cards)) as [|v0 rest].
  - split; [done|]. intros (k & Hk).
    specialize (Hk 0 ltac:(lia)). apply Hmem in Hk. by apply elem_of_nil in Hk.
  - rewrite straightScan_spec by (done || lia).
    apply exist_proper. intros k. apply forall_proper. intros i.
    apply forall_proper. intros Hi. rewrite <- Hmem, elem_of_cons.
    split; intros [?|?]; try tauto; [left; lia|subst; left; lia].
Qed.

(** C6: [isMadeStraight] returns true exactly when five consecutive values
    exist among the distinct rank values of the cards (0 = Two .. 12 = Ace)
    extended with the low-Ace value -1 when an Ace is present; and cards
    holding the ranks A, 2, 3, 4 and 5 make a straight (the wheel). *)
Theorem isMadeStraight_iff_five_consecutive (cards : list PlayingCard) :
  (isMadeStraight cards = true ↔ straightMade cards) ∧
  ((∀ r, r ∈ [RA; R2; R3; R4; R5] → ∃ c, c ∈ cards ∧ rank c = r) →
   isMadeStraight cards = true).
Proof.
  split; [apply isMadeStraight_iff|].
  intros Hwheel. apply isMadeStraight_iff. exists (-1). intros i Hi.
  assert (Hr : ∀ r, r ∈ [RA; R2; R3; R4; R5] → hasValue cards (rankValue r)).
  { intros r (c & Hc & <-)%Hwheel. left. eauto. }
  destruct (decide (i = 0)) as [->|];
    [right; split; [done|]; apply Hwheel; compute_done|].
  destruct (decide (i = 1)) as [->|]; [apply (Hr R2); compute_done|].
  destruct (decide (i = 2)) as [->|]; [apply (Hr R3); compute_done|].
  destruct (decide (i = 3)) as [->|]; [apply (Hr R4); compute_done|].
  assert (i = 4) as -> by lia. apply (Hr R5); compute_done.
Qed.

Lemma isMadeStraight_iff_five_consecutive_witness :
  isMadeStraight [card RA Spades; card R2 Hearts; card R3 Diamonds;
                  card R4 Clubs; card R5 Spades] = true.
Proof.
  apply (proj2 (isMadeStraight_iff_five_consecutive _)).
  intros r Hr.
  cases_in Hr; subst r;
    [ exists (card RA Spades) | exists (card R2 Hearts)
    | exists (card R3 Diamonds) | exists (card R4 Clubs)
    | exists (card R5 Spades) ];
    (split; [compute_done|reflexivity]).
Defined.

(** ** Counting cards by rank and by suit *)

Section Counting.
Context `{Countable K}.
Variable key : PlayingCard → K.

Lemma lookup_bump (m : gmap K nat) (k k' : K) :
  bump m k !! k' =
  if decide (k = k') then Some (default 0 (m !! k) + 1)%nat else m !! k'.
Proof.
  unfold bump. destruct (decide (k = k')) as [->|Hne].
  - by rewrite lookup_insert_eq.
  - by rewrite lookup_insert_ne.
Qed.

Lemma lookup_foldl_bump (cards : list PlayingCard) : ∀ (m : gmap K nat) (k : K),
  foldl (fun m c => bump m (key c)) m cards !! k =
  if decide (held key k cards = 0)%nat then m !! k
  else Some (default 0 (m !! k) + held key k cards)%nat.
Proof.
  unfold held. induction cards as [|c cards IH]; intros m k; simpl; [done|].
  rewrite IH, lookup_bump, filter_cons.
  destruct (decide (key c = k)) as [->|Hne]; simpl.
  - destruct (decide (length _ = 0)%nat) as [->|_]; simpl; f_equal; lia.
  - done.
Qed.

Lemma lookup_count (cards : list PlayingCard) (k : K) :
  foldl (fun m c => bump m (key c)) ∅ cards !! k =
  if decide (held key k cards = 0)%nat then None else Some (held key k cards).
Proof. rewrite lookup_foldl_bump, lookup_empty. done. Qed.

Lemma elem_of_mapValues (m : gmap K nat) (v : nat) :
  v ∈ mapValues m ↔ ∃ k, m !! k = Some v.
Proof.
  unfold mapValues. rewrite list_elem_of_fmap. split.
  - intros ([k v'] & -> & Hkv%elem_of_map_to_list). by exists k.
  - intros (k & Hk). exists (k, v). split; [done|]. by apply elem_of_map_to_list.
Qed.

Lemma elem_of_count_values (cards : list PlayingCard) (v : nat) :
  v ∈ mapValues (foldl (fun m c => bump m (key c)) ∅ cards) ↔
  v ≠ 0%nat ∧ ∃ k, held key k cards = v.
Proof.
  rewrite elem_of_mapValues. split.
  - intros (k & Hk). rewrite lookup_count in Hk.
    destruct (decide (held key k cards = 0)%nat); simplify_eq. eauto.
  - intros (Hv & k & <-). exists k. rewrite lookup_count.
    by destruct (decide (held key k cards = 0)%nat).
Qed.

(** The values of a map, read off key by key along any enumeration of the
    key type. *)
Lemma NoDup_omap_lookup (m : gmap K nat) (univ : list K) :
  NoDup univ → NoDup (omap (fun k => (k,.) <$> m !! k) univ).
Proof.
  induction 1 as [|k univ Hk Hnd IH]; simpl; [constructor|].
  destruct (m !! k) as [v|]; simpl; [|done].
  constructor; [|done]. rewrite list_elem_of_omap.
  intros (k' & Hk' & Heq). destruct (m !! k'); simplify_eq/=. done.
Qed.

Lemma map_to_list_enum (m : gmap K nat) (univ : list K) :
  NoDup univ → (∀ k, k ∈ univ) →
  map_to_list m ≡ₚ omap (fun k => (k,.) <$> m !! k) univ.
Proof.
  intros Hnd Hall. apply NoDup_Permutation.
  - apply NoDup_map_to_list.
  - by apply NoDup_omap_lookup.
  - intros [k v]. rewrite elem_of_map_to_list, list_elem_of_omap. split.
    + intros Hkv. exists k. split; [done|]. by rewrite Hkv.
    + intros (k' & _ & Heq). destruct (m !! k') eqn:E; simplify_eq/=. done.
Qed.

Lemma mapValues_enum (m : gmap K nat) (univ : list K) :
  NoDup univ → (∀ k, k ∈ univ) → mapValues m ≡ₚ omap (fun k => m !! k) univ.
Proof.
  intros Hnd Hall. unfold mapValues. rewrite (map_to_list_enum m univ) by done.
  clear. induction univ as [|k univ IH]; simpl; [done|].
  destruct (m !! k); simpl; by rewrite IH.
Qed.

(** How many keys of [univ] are held exactly [n] times. *)
Lemma count_values_enum (cards : list PlayingCard) (univ : list K) (n : nat) :
  NoDup univ → (∀ k, k ∈ univ) → n ≠ 0%nat →
  length (filter (fun c => c = n)
            (mapValues (foldl (fun m c => bump m (key c)) ∅ cards)))
  = length (filter (fun k => held key k cards = n) univ).
Proof.
  intros Hnd Hall Hn. rewrite (mapValues_enum _ univ) by done.
  clear Hnd Hall. induction univ as [|k univ IH]; simpl; [done|].
  pose proof (lookup_count cards k) as Hk. rewrite (filter_cons _ k).
  destruct (foldl _ ∅ cards !! k) as [v|];
    destruct (decide (held key k cards = 0)%nat) as [E|E]; simplify_eq/=.
  - rewrite filter_cons.
    destruct (decide (held key k cards = n)); simpl; [f_equal|]; exact IH.
  - destruct (decide (held key k cards = n)); [congruence|exact IH].
Qed.

End Counting.

Lemma NoDup_RANKS : NoDup RANKS.
Proof. compute_done. Qed.

Lemma NoDup_SUITS : NoDup SUITS.
Proof. compute_done. Qed.

Lemma elem_of_RANKS (r : Rank) : r ∈ RANKS.
Proof. destruct r; compute_done. Qed.

Lemma elem_of_SUITS (s : Suit) : s ∈ SUITS.
Proof. destruct s; compute_done. Qed.

Lemma hasPairTripsQuads_counts (cards : list PlayingCard) :
  hasPairTripsQuads cards =
  {| pairs := ranksHeld 2 cards; trips := ranksHeld 3 cards;
     quads := ranksHeld 4 cards |}.
Proof.
  unfold hasPairTripsQuads, sortDesc, ranksHeld, countByRank.
  rewrite !merge_sort_Permutation.
  rewrite !(count_values_enum rank cards RANKS)
    by (apply NoDup_RANKS || apply elem_of_RANKS || done).
  done.
Qed.

Lemma ranksHeld_pos (n : nat) (cards : list PlayingCard) :
  ranksHeld n cards ≠ 0%nat ↔ ∃ r, rankCount r cards = n.
Proof.
  unfold ranksHeld. split.
  - destruct (filter _ RANKS) as [|r l] eqn:E; [done|]. intros _.
    assert (r ∈ filter (fun r => rankCount r cards = n) RANKS) as Hr
      by (rewrite E; left).
    apply list_elem_of_filter in Hr as [Hr _]. eauto.
  - intros (r & Hr).
    assert (r ∈ filter (fun r => rankCount r cards = n) RANKS) as Hin
      by (apply list_elem_of_filter; split; [done|apply elem_of_RANKS]).
    destruct (filter _ RANKS); [by apply elem_of_nil in Hin|done].
Qed.

Lemma ranksHeld_two (n : nat) (cards : list PlayingCard) :
  (2 ≤ ranksHeld n cards)%nat ↔
  ∃ r1 r2, r1 ≠ r2 ∧ rankCount r1 cards = n ∧ rankCount r2 cards = n.
Proof.
  unfold ranksHeld.
  pose proof (NoDup_filter (fun r => rankCount r cards = n) _ NoDup_RANKS) as Hnd.
  pose proof (list_elem_of_filter (fun r => rankCount r cards = n) RANKS) as Hin.
  split.
  - destruct (filter _ RANKS) as [|r1 [|r2 l]]; simpl; [lia|lia|]. intros _.
    exists r1, r2. apply NoDup_cons in Hnd as [Hne _].
    split; [intros ->; apply Hne; left|].
    split; apply Hin; [left|right; left].
  - intros (r1 & r2 & Hne & H1 & H2).
    assert (r1 ∈ filter (fun r => rankCount r cards = n) RANKS) as Hr1
      by (apply Hin; split; [done|apply elem_of_RANKS]).
    assert (r2 ∈ filter (fun r => rankCount r cards = n) RANKS) as Hr2
      by (apply Hin; split; [done|apply elem_of_RANKS]).
    destruct (filter _ RANKS) as [|a [|b l]]; simpl; [|exfalso|lia].
    + by apply elem_of_nil in Hr1.
    + apply list_elem_of_singleton in Hr1, Hr2. congruence.
Qed.

Lemma isMadeFlush_iff (cards : list PlayingCard) :
  isMadeFlush cards = true ↔ flushMade cards.
Proof.
  unfold isMadeFlush, flushMade, countBySuit. rewrite existsb_exists. split.
  - intros (v & Hv%list_elem_of_In & H5%bool_decide_eq_true).
    apply elem_of_count_values in Hv as (_ & s & <-). by exists s.
  - intros (s & Hs). exists (suitCount s cards). split.
    + apply list_elem_of_In, elem_of_count_values. split; [|by exists s].
      intros E. rewrite E in Hs. lia.
    + by apply bool_decide_eq_true.
Qed.

(** ** The hand classifier *)

(** Each category's condition, read off the classifier's own tests. *)
Lemma qualifies_tests (cards : list PlayingCard) (h : HandCategory) :
  qualifies cards h ↔
  match h with
  | StraightFlush => isMadeFlush cards = true ∧ isMadeStraight cards = true
  | FourOfAKind => ranksHeld 4 cards ≠ 0%nat
  | FullHouse => ranksHeld 3 cards ≠ 0%nat ∧ ranksHeld 2 cards ≠ 0%nat
  | Flush => isMadeFlush cards = true
  | Straight => isMadeStraight cards = true
  | ThreeOfAKind => ranksHeld 3 cards ≠ 0%nat
  | TwoPair => (2 ≤ ranksHeld 2 cards)%nat
  | OnePair => ranksHeld 2 cards ≠ 0%nat
  | HighCard => True
  end.
Proof.
  pose proof (isMadeFlush_iff cards) as HF.
  pose proof (isMadeStraight_iff cards) as HS.
  destruct h; simpl; rewrite ?ranksHeld_pos, ?ranksHeld_two; try tauto.
  split.
  - intros (r1 & r2 & _ & H1 & H2). eauto.
  - intros [(r1 & H1) (r2 & H2)]. exists r1, r2. split; [|done].
    intros ->. congruence.
Qed.

(** The label is that of the strongest qualifying category. *)
Lemma evalOnFlop_classified (hole : Hole) (flop : Flop) :
  ∃ h : HandCategory,
    bestHandLabel (evalOnFlop hole flop) = label h ∧
    classifiedAs (holeCards hole ++ flopCards flop) h.
Proof.
  set (cards := holeCards hole ++ flopCards flop).
  unfold evalOnFlop. fold cards. cbn [bestHandLabel].
  rewrite (hasPairTripsQuads_counts cards). cbn [pairs trips quads].
  pose proof (qualifies_tests cards) as Hq.
  unfold classifiedAs, truthy.
  destruct (isMadeFlush cards) eqn:EF, (isMadeStraight cards) eqn:ES;
    repeat case_bool_decide; repeat case_decide; cbn [andb negb];
    first
      [ exists StraightFlush; split; [reflexivity|]
      | exists FourOfAKind; split; [reflexivity|]
      | exists FullHouse; split; [reflexivity|]
      | exists Flush; split; [reflexivity|]
      | exists Straight; split; [reflexivity|]
      | exists ThreeOfAKind; split; [reflexivity|]
      | exists TwoPair; split; [reflexivity|]
      | exists OnePair; split; [reflexivity|]
      | exists HighCard; split; [reflexivity|] ];
    (split; [apply Hq; simpl; intuition (congruence || lia)|]);
    intros h' Hlt; rewrite Hq; destruct h'; simpl in Hlt |- *;
    intuition (congruence || lia).
Qed.

Lemma classifiedAs_unique (cards : list PlayingCard) (h h' : HandCategory) :
  classifiedAs cards h → classifiedAs cards h' → h' = h.
Proof.
  intros [Hq Hmax] [Hq' Hmax'].
  destruct (decide (tier h < tier h')%nat) as [Hlt|Hge];
    [by destruct (Hmax h' Hlt)|].
  destruct (decide (tier h' < tier h)%nat) as [Hlt'|Hge'];
    [by destruct (Hmax' h Hlt')|].
  destruct h, h'; simpl in *; (done || lia).
Qed.

(** On five cards, a made flush with a made straight is a straight flush:
    all five cards share one suit and their values are consecutive. *)
Lemma straightFlush_one_suit (hole : Hole) (flop : Flop) :
  qualifies (holeCards hole ++ flopCards flop) StraightFlush ↔
  (∃ s, ∀ c, c ∈ holeCards hole ++ flopCards flop → suit c = s) ∧
  straightMade (holeCards hole ++ flopCards flop).
Proof.
  set (cards := holeCards hole ++ flopCards flop).
  assert (length cards = 5%nat) as Hlen by done.
  simpl. unfold flushMade, suitCount, held.
  split; intros [(s & Hs) Hst]; (split; [exists s|done]).
  - intros c Hc. destruct (decide (suit c = s)) as [|Hne]; [done|].
    pose proof (length_filter_lt (fun c => suit c = s) cards c Hc Hne). lia.
  - assert (filter (fun c => suit c = s) cards = cards) as ->; [|lia].
    clear Hlen Hst. induction cards as [|c cards IH]; [done|].
    rewrite filter_cons_True by (apply Hs; left).
    f_equal. apply IH. intros c' Hc'. apply Hs. by right.
Qed.

(** C1: on the five cards of a hole and a flop (distinct or not),
    [evalOnFlop] returns one of the nine hand labels, and it is the label of
    the strongest category the cards qualify for, in the documented order
    Straight Flush > Four of a Kind > Full House (trips and a separate pair)
    > Flush (some suit count at least 5) > Straight > Three of a Kind >
    Two Pair (at least two pair-ranks) > One Pair > High Card; no other
    category is the strongest one. *)
Theorem evalOnFlop_bestHandLabel_precedence (hole : Hole) (flop : Flop) :
  ∃ h : HandCategory,
    bestHandLabel (evalOnFlop hole flop) = label h ∧
    classifiedAs (holeCards hole ++ flopCards flop) h ∧
    ∀ h', classifiedAs (holeCards hole ++ flopCards flop) h' → h' = h.
Proof.
  destruct (evalOnFlop_classified hole flop) as (h & Hl & Hc).
  exists h. split_and!; [done..|]. intros h' Hc'.
  eapply classifiedAs_unique; eassumption.
Qed.

(** ** Draws *)

Lemma mathMax_foldl (xs : list nat) : ∀ (acc : option nat) (n : nat),
  foldl (fun acc x => Some (match acc with None => x | Some y => Nat.max y x end))
        acc xs = Some n ↔
  (acc = Some n ∨ n ∈ xs) ∧ (∀ y, acc = Some y → (y ≤ n)%nat) ∧
  (∀ x, x ∈ xs → (x ≤ n)%nat).
Proof.
  induction xs as [|x xs IH]; intros acc n; simpl.
  - rewrite elem_of_nil. split.
    + intros ->. split_and!; [by left| |by intros ? ?%elem_of_nil].
      intros y [= ->]. done.
    + intros ([?|[]] & _). done.
  - rewrite IH. setoid_rewrite elem_of_cons. split.
    + intros ([Hacc|Hin] & Hle & Hall).
      * injection Hacc as Hacc. specialize (Hle _ eq_refl).
        split_and!.
        -- destruct acc as [y|]; [|by right; left].
           destruct (Nat.max_spec y x) as [[? Hm]|[? Hm]]; rewrite Hm in Hacc;
             [by right; left|left; by subst].
        -- intros y ->. lia.
        -- intros z [->|Hz]; [destruct acc; lia|by apply Hall].
      * split_and!; [by right; right| |].
        -- intros y ->. specialize (Hle _ eq_refl). lia.
        -- intros z [->|Hz]; [|by apply Hall].
           specialize (Hle _ eq_refl). destruct acc; lia.
    + intros (Hn & Hle & Hall). split_and!.
      * destruct Hn as [->|[->|Hin]]; [| |by right].
        -- left. f_equal. specialize (Hall x (or_introl eq_refl)). lia.
        -- left. f_equal. destruct acc as [y|]; [|done].
           specialize (Hle y eq_refl). lia.
      * intros y [= <-]. destruct acc as [z|].
        -- specialize (Hle z eq_refl). specialize (Hall x (or_introl eq_refl)). lia.
        -- apply Hall. by left.
      * intros z Hz. apply Hall. by right.
Qed.

Lemma mathMax_Some (xs : list nat) (n : nat) :
  mathMax xs = Some n ↔ n ∈ xs ∧ ∀ x, x ∈ xs → (x ≤ n)%nat.
Proof.
  unfold mathMax. rewrite mathMax_foldl. split.
  - by intros ([?|?] & _ & ?).
  - intros [? ?]. split_and!; [by right|done..].
Qed.

Lemma suit_values (cards : list PlayingCard) (v : nat) :
  v ∈ mapValues (countBySuit cards) ↔ v ≠ 0%nat ∧ ∃ s, suitCount s cards = v.
Proof. apply (elem_of_count_values suit). Qed.

(** With no suit held five times, the largest suit count is 4 exactly when
    some suit is held exactly four times. *)
Lemma maxSuit_four (cards : list PlayingCard) :
  ¬ flushMade cards →
  mathMax (mapValues (countBySuit cards)) = Some 4%nat ↔ flushDraw cards.
Proof.
  intros Hnf. rewrite mathMax_Some. unfold flushDraw. split.
  - intros [(_ & s & Hs)%suit_values _]. eauto.
  - intros (s & Hs). split; [apply suit_values; eauto|].
    intros x (_ & s' & <-)%suit_values.
    destruct (decide (suitCount s' cards ≤ 4)%nat); [done|].
    exfalso. apply Hnf. exists s'. lia.
Qed.

Lemma displayedDraw_unique (cards : list PlayingCard) (sd : StraightDraw)
    (d d' : DrawCategory) :
  displayedDraw cards sd d → displayedDraw cards sd d' → d' = d.
Proof. destruct d, d'; simpl; intuition congruence. Qed.

(** C3: when the five cards hold neither a made flush nor a made straight,
    [evalOnFlop] reports the draw by the precedence Combo (flush draw and
    OESD) > Flush Draw alone > OESD alone > Gutshot alone > None, a flush
    draw being exactly 4 cards of one suit, with the outs of the table
    Combo 15, Flush Draw 9, OESD 8, Gutshot 4, None 0. *)
Theorem evalOnFlop_draw_precedence (hole : Hole) (flop : Flop) :
  ¬ flushMade (holeCards hole ++ flopCards flop) →
  ¬ straightMade (holeCards hole ++ flopCards flop) →
  ∃ d : DrawCategory,
    drawLabel (evalOnFlop hole flop) = drawName d ∧
    outs (evalOnFlop hole flop) = drawOuts d ∧
    displayedDraw (holeCards hole ++ flopCards flop)
      (straightDrawType (holeCards hole) (flopCards flop)) d ∧
    ∀ d', displayedDraw (holeCards hole ++ flopCards flop)
            (straightDrawType (holeCards hole) (flopCards flop)) d' → d' = d.
Proof.
  set (cards := holeCards hole ++ flopCards flop).
  set (sd := straightDrawType (holeCards hole) (flopCards flop)).
  intros HF HS.
  cut (∃ d, drawLabel (evalOnFlop hole flop) = drawName d ∧
            outs (evalOnFlop hole flop) = drawOuts d ∧ displayedDraw cards sd d).
  { intros (d & Hl & Ho & Hd). exists d. split_and!; [done..|].
    intros d' Hd'. eapply displayedDraw_unique; eassumption. }
  pose proof (maxSuit_four cards HF) as Hmax.
  rewrite <- isMadeFlush_iff in HF.
  rewrite <- (isMadeStraight_iff cards) in HS.
  unfold evalOnFlop. fold cards sd. cbn [drawLabel outs].
  destruct (isMadeFlush cards); [done|].
  destruct (isMadeStraight cards); [done|]. cbn [negb andb].
  case_bool_decide as Hfd; rewrite Hmax in Hfd;
    destruct (oesd sd) eqn:Eo, (gutshot sd) eqn:Eg; cbn [andb fst snd];
    first
      [ exists ComboDraw; split; [reflexivity|]
      | exists FlushDraw; split; [reflexivity|]
      | exists OpenEnded; split; [reflexivity|]
      | exists Gutshot; split; [reflexivity|]
      | exists NoDraw; split; [reflexivity|] ];
    (split; [reflexivity|]); simpl; rewrite ?Eo, ?Eg; tauto.
Qed.

Lemma evalOnFlop_draw_precedence_witness :
  let hole := (card RA Spades, card RK Spades) in
  let flop := (card RQ Spades, card RJ Spades, card R2 Hearts) in
  drawLabel (evalOnFlop hole flop) = "Combo Draw (Flush + Straight)" ∧
  ∃ d : DrawCategory,
    drawLabel (evalOnFlop hole flop) = drawName d ∧
    outs (evalOnFlop hole flop) = drawOuts d ∧
    displayedDraw (holeCards hole ++ flopCards flop)
      (straightDrawType (holeCards hole) (flopCards flop)) d ∧
    ∀ d', displayedDraw (holeCards hole ++ flopCards flop)
            (straightDrawType (holeCards hole) (flopCards flop)) d' → d' = d.
Proof.
  intros hole flop. split; [by vm_compute|].
  apply (evalOnFlop_draw_precedence hole flop).
  - rewrite <- isMadeFlush_iff. by vm_compute.
  - rewrite <- (isMadeStraight_iff _). by vm_compute.
Defined.

(** C7: [evalOnFlop] returns a draw label other than None only when the
    classifier finds neither a made flush nor a made straight on the five
    cards; the hand label is then none of Flush, Straight, Straight Flush. *)
Theorem evalOnFlop_draw_excludes_made (hole : Hole) (flop : Flop) :
  drawLabel (evalOnFlop hole flop) ≠ "None" →
  (isMadeFlush (holeCards hole ++ flopCards flop) = false ∧
   isMadeStraight (holeCards hole ++ flopCards flop) = false) ∧
  (¬ flushMade (holeCards hole ++ flopCards flop) ∧
   ¬ straightMade (holeCards hole ++ flopCards flop)) ∧
  bestHandLabel (evalOnFlop hole flop) ∉ ["Flush"; "Straight"; "Straight Flush"].
Proof.
  set (cards := holeCards hole ++ flopCards flop). intros Hdraw.
  assert (isMadeFlush cards = false ∧ isMadeStraight cards = false) as [EF ES].
  { revert Hdraw. unfold evalOnFlop. fold cards. cbn [drawLabel].
    destruct (isMadeFlush cards), (isMadeStraight cards); cbn [negb andb snd];
      done. }
  assert (¬ flushMade cards) as HF
    by (rewrite <- isMadeFlush_iff; congruence).
  assert (¬ straightMade cards) as HS
    by (rewrite <- (isMadeStraight_iff cards); congruence).
  split_and!; [done..|].
  destruct (evalOnFlop_classified hole flop) as (h & -> & Hq & _).
  fold cards in Hq. rewrite !elem_of_cons, elem_of_nil.
  destruct h; simpl in Hq |- *; intuition (discriminate || tauto).
Qed.

Lemma evalOnFlop_draw_excludes_made_witness :
  let hole := (card R9 Hearts, card R8 Hearts) in
  let flop := (card R7 Clubs, card R6 Diamonds, card RK Spades) in
  drawLabel (evalOnFlop hole flop) = "Open-Ended Straight Draw" ∧
  isMadeFlush (holeCards hole ++ flopCards flop) = false ∧
  isMadeStraight (holeCards hole ++ flopCards flop) = false.
Proof.
  intros hole flop. split; [by vm_compute|].
  apply (evalOnFlop_draw_excludes_made hole flop). by vm_compute.
Defined.

(** ** Improvement outs *)

Lemma calcImprovementOuts_table (h : HandCategory) :
  calcImprovementOuts (label h) = improvementTable h.
Proof. by destruct h. Qed.

(** C4, as the code has it: a high-card hand with a combo draw keeps the 6
    improvement outs of High Card, although its draw label is not None. *)
Lemma improvementOuts_with_draw_counterexample :
  let e := evalOnFlop (card RA Spades, card RK Spades)
                      (card RQ Spades, card RJ Spades, card R2 Hearts) in
  bestHandLabel e = "High Card" ∧
  drawLabel e = "Combo Draw (Flush + Straight)" ∧
  improvementOuts e = 6 ∧
  ¬ (drawLabel e ≠ "None" → improvementOuts e = 0).
Proof.
  split_and!; [by vm_compute..|]. intros Hclaim.
  assert (6 = 0) as Habs; [|done]. apply Hclaim. by vm_compute.
Qed.

(** C4, amended: whatever the draw label, [improvementOuts] is the table
    value of the hand label: High Card 6, One Pair 5, Two Pair 4, Three of a
    Kind 7, Full House 1, and 0 for Straight, Flush, Straight Flush and Four
    of a Kind. *)
Theorem evalOnFlop_improvementOuts_table (hole : Hole) (flop : Flop) :
  improvementOuts (evalOnFlop hole flop)
  = calcImprovementOuts (bestHandLabel (evalOnFlop hole flop)) ∧
  ∃ h : HandCategory,
    bestHandLabel (evalOnFlop hole flop) = label h ∧
    improvementOuts (evalOnFlop hole flop) = improvementTable h.
Proof.
  split; [done|].
  destruct (evalOnFlop_classified hole flop) as (h & Hl & _).
  exists h. split; [done|].
  rewrite <- calcImprovementOuts_table, <- Hl. done.
Qed.

(** ** The decision engine *)

Lemma decisionRule_functional (bestHand : string) (outs : Z) (reqPct : float)
    (d d' : Decision) :
  decisionRule bestHand outs reqPct d → decisionRule bestHand outs reqPct d' →
  d = d'.
Proof. destruct 1; destruct 1; (done || lia || congruence). Qed.

(** C5: for every hand label, every [outs ≥ 0] and every required
    percentage, [recommendDecision] applies the first matching rule: Raise
    on Two Pair or better; else Raise when [outs ≥ 15]; else Call when
    [min(100, outs × 4) + 2 ≥ requiredPct]; else Fold. High Card with 4 outs
    against 50% folds. *)
Theorem recommendDecision_first_matching_rule
    (bestHand : string) (outs : Z) (reqPct : float) :
  0 ≤ outs →
  decisionRule bestHand outs reqPct (recommendDecision bestHand outs reqPct) ∧
  (∀ d, decisionRule bestHand outs reqPct d →
        recommendDecision bestHand outs reqPct = d) ∧
  recommendDecision "High Card" 4 50 = Fold.
Proof.
  intros Houts.
  assert (Hrule : decisionRule bestHand outs reqPct
                    (recommendDecision bestHand outs reqPct)).
  { unfold recommendDecision, approxEquityFromOuts.
    change strongMadeLabels with (label <$> strongCategories).
    case_bool_decide as Hs; [by constructor|].
    destruct (decide (15 ≤ outs)); [by constructor|].
    destruct (reqPct <=? _)%float eqn:E.
    - apply rule_price; [done|lia|done].
    - apply rule_fold; [done|lia|done]. }
  split_and!; [done| |by vm_compute].
  intros d Hd. eapply decisionRule_functional; eassumption.
Qed.

Lemma recommendDecision_first_matching_rule_witness :
  decisionRule "One Pair" 9 38 (recommendDecision "One Pair" 9 38) ∧
  recommendDecision "One Pair" 9 38 = Call.
Proof.
  split; [|by vm_compute].
  apply (recommendDecision_first_matching_rule "One Pair" 9 38). lia.
Defined.

(** ** Straight draws *)

Lemma hasValue_elem_of (cards : list PlayingCard) (vs : list Z) :
  withWheel (uniqueSortedRankVals cards) = vs →
  ∀ v, hasValue cards v ↔ v ∈ vs.
Proof. intros <- v. by rewrite elem_of_withWheel. Qed.

(** *** The subsets the detector visits *)

Lemma elem_of_picks (l : list Z) (x : Z) (r : list Z) :
  (x, r) ∈ picks l ↔ ∃ l1, l = l1 ++ x :: r.
Proof.
  induction l as [|y l IH]; simpl.
  - rewrite elem_of_nil. split; [done|]. intros ([|??] & ?); done.
  - rewrite elem_of_cons, IH. split.
    + intros [[= -> ->]|(l1 & ->)]; [by exists []|by exists (y :: l1)].
    + intros ([|z l1] & Heq); simplify_eq/=; [by left|right; eauto].
Qed.

Lemma picks_sorted (l : list Z) (x : Z) (r : list Z) :
  StronglySorted Z.lt l → (x, r) ∈ picks l →
  x ∈ l ∧ StronglySorted Z.lt r ∧ ∀ y, y ∈ r ↔ y ∈ l ∧ x < y.
Proof.
  intros Hs (l1 & ->)%elem_of_picks.
  apply StronglySorted_app in Hs as (Hlr & _ & Hxr).
  apply StronglySorted_cons in Hxr as [Hx Hr]. rewrite Forall_forall in Hx.
  split_and!; [apply elem_of_app; right; left|done|].
  intros y. rewrite elem_of_app, elem_of_cons. split.
  - intros Hy. split; [by right; right|by apply Hx].
  - intros [[Hy|[->|Hy]] Hlt]; [|lia|done].
    specialize (Hlr y x Hy ltac:(left)). lia.
Qed.

Lemma picks_elem_of (l : list Z) (x : Z) : x ∈ l → ∃ r, (x, r) ∈ picks l.
Proof.
  intros (l1 & l2 & ->)%list_elem_of_split. exists l2.
  apply elem_of_picks. by exists l1.
Qed.

(** On a strictly increasing array, [comb4] yields the increasing
    quadruples of its elements. *)
Lemma elem_of_comb4 (l : list Z) (q : list Z) :
  StronglySorted Z.lt l →
  q ∈ comb4 l ↔
  ∃ a b c d, q = [a; b; c; d] ∧ (a < b ∧ b < c ∧ c < d) ∧
             a ∈ l ∧ b ∈ l ∧ c ∈ l ∧ d ∈ l.
Proof.
  intros Hs. unfold comb4. split.
  - intros ([a ra] & ([b rb] & ([c rc] & ([d rd] & Hq & Hd)%list_elem_of_bind
      & Hc)%list_elem_of_bind & Hb)%list_elem_of_bind & Ha)%list_elem_of_bind.
    apply list_elem_of_singleton in Hq as ->.
    apply (picks_sorted _ _ _ Hs) in Ha as (Ha & Hsa & Hra).
    apply (picks_sorted _ _ _ Hsa) in Hb as (Hb & Hsb & Hrb).
    apply (picks_sorted _ _ _ Hsb) in Hc as (Hc & Hsc & Hrc).
    apply (picks_sorted _ _ _ Hsc) in Hd as (Hd & _ & _).
    apply Hra in Hb as [Hb ?]. apply Hrb in Hc as [Hc ?].
    apply Hra in Hc as [Hc ?]. apply Hrc in Hd as [Hd ?].
    apply Hrb in Hd as [Hd ?]. apply Hra in Hd as [Hd ?].
    exists a, b, c, d. split_and!; done.
  - intros (a & b & c & d & -> & (Hab & Hbc & Hcd) & Ha & Hb & Hc & Hd).
    destruct (picks_elem_of l a Ha) as (ra & Hpa).
    destruct (picks_sorted _ _ _ Hs Hpa) as (_ & Hsa & Hra).
    destruct (picks_elem_of ra b ltac:(apply Hra; done)) as (rb & Hpb).
    destruct (picks_sorted _ _ _ Hsa Hpb) as (_ & Hsb & Hrb).
    destruct (picks_elem_of rb c) as (rc & Hpc).
    { apply Hrb. split; [apply Hra; split; [done|lia]|done]. }
    destruct (picks_sorted _ _ _ Hsb Hpc) as (_ & Hsc & Hrc).
    destruct (picks_elem_of rc d) as (rd & Hpd).
    { apply Hrc. split; [|done]. apply Hrb. split; [|lia].
      apply Hra. split; [done|lia]. }
    apply list_elem_of_bind. exists (a, ra). split; [|done].
    apply list_elem_of_bind. exists (b, rb). split; [|done].
    apply list_elem_of_bind. exists (c, rc). split; [|done].
    apply list_elem_of_bind. exists (d, rd). split; [|done].
    apply list_elem_of_singleton. done.
Qed.

(** The flags accumulate over the subsets: each is set as soon as one
    subset sets it. *)
Lemma drawStep_flags (st : StraightDraw) (q : list Z) :
  oesd (drawStep st q) = oesd st || oesd (drawStep (mkDraw false false) q) ∧
  gutshot (drawStep st q)
  = gutshot st || gutshot (drawStep (mkDraw false false) q).
Proof.
  unfold drawStep. destruct (lowAce q !! 3%nat), (lowAce q !! 0%nat);
    repeat case_decide; simpl; rewrite ?orb_true_r, ?orb_false_r; done.
Qed.

Lemma foldl_drawStep_flags (qs : list (list Z)) : ∀ st : StraightDraw,
  (oesd (foldl drawStep st qs) = true ↔
   oesd st = true ∨
   ∃ q, q ∈ qs ∧ oesd (drawStep (mkDraw false false) q) = true) ∧
  (gutshot (foldl drawStep st qs) = true ↔
   gutshot st = true ∨
   ∃ q, q ∈ qs ∧ gutshot (drawStep (mkDraw false false) q) = true).
Proof.
  induction qs as [|q qs IH]; intros st; simpl.
  - split; (split; [by left|]); intros [?|(? & []%elem_of_nil & _)]; done.
  - destruct (IH (drawStep st q)) as [IHo IHg].
    destruct (drawStep_flags st q) as [Eo Eg].
    rewrite IHo, IHg, Eo, Eg, !orb_true_iff.
    setoid_rewrite elem_of_cons. split; split.
    + intros [[?|?]|(q' & ? & ?)]; eauto.
    + intros [?|(q' & [->|?] & ?)]; eauto.
    + intros [[?|?]|(q' & ? & ?)]; eauto.
    + intros [?|(q' & [->|?] & ?)]; eauto.
Qed.

Lemma foldl_setDelete (t s : list Z) :
  foldl setDelete s t = filter (fun v => v ∉ t) s.
Proof.
  revert s. induction t as [|x t IH]; intros s; simpl.
  - induction s as [|y s IHs]; [done|].
    rewrite filter_cons_True by apply not_elem_of_nil. by f_equal.
  - rewrite IH. unfold setDelete. clear IH.
    induction s as [|y s IHs]; [done|].
    rewrite (filter_cons _ y s), (filter_cons (fun v => v ∉ x :: t) y s).
    destruct (decide (y ≠ x)) as [Hne|Heq].
    + rewrite filter_cons.
      destruct (decide (y ∉ t)) as [Hy|Hy].
      * rewrite decide_True by (rewrite not_elem_of_cons; done). by f_equal.
      * rewrite decide_False by (rewrite not_elem_of_cons; tauto). done.
    + rewrite decide_False by (rewrite not_elem_of_cons; tauto). done.
Qed.

Lemma sortAsc_sorted (l : list Z) : StronglySorted Z.lt l → sortAsc l = l.
Proof.
  intros Hs. apply (StronglySorted_unique Z.le).
  - apply (StronglySorted_merge_sort Z.le).
  - clear -Hs. induction Hs as [|x l Hl IH Hx]; constructor; [done|].
    eapply Forall_impl; [exact Hx|]. intros; simpl in *; lia.
  - apply sortAsc_perm.
Qed.

(** One iteration on an increasing quadruple without the low Ace. *)
Lemma drawStep_quadruple (a b c d : Z) :
  a < b → b < c → c < d → -1 < a →
  (oesd (drawStep (mkDraw false false) [a; b; c; d]) = true ↔ d - a = 3) ∧
  (gutshot (drawStep (mkDraw false false) [a; b; c; d]) = true ↔
   d - a = 4 ∧
   length (filter (fun v => v ∉ [a; b; c; d]) (seqZ a 5)) = 1%nat).
Proof.
  intros Hab Hbc Hcd Ha. unfold drawStep, lowAce. simpl fmap.
  rewrite !decide_False by lia.
  rewrite sortAsc_sorted
    by (repeat first [apply SSorted_nil | apply SSorted_cons
                     | apply Forall_nil_2 | apply Forall_cons_2]; lia).
  simpl lookup. cbv beta iota zeta.
  destruct (decide (d - a = 3)) as [E3|E3]; cbn [oesd gutshot];
    [split; split; (done || lia)|].
  destruct (decide (d - a = 4)) as [E4|E4]; cbn [oesd gutshot];
    [|split; split; (done || lia)].
  replace (d - a + 1) with 5 by lia.
  rewrite foldl_setAdd_NoDup_id by (simpl; apply NoDup_seqZ).
  rewrite foldl_setDelete. simpl app.
  destruct (decide (length _ = 1%nat)); cbn [oesd gutshot]; split; split;
    (done || lia || tauto).
Qed.

(** On cards without an Ace, the two flags are as documented. *)
Lemma straightDrawType_no_ace (hole flop : list PlayingCard) :
  (∀ c, c ∈ hole ++ flop → rank c ≠ RA) →
  (oesd (straightDrawType hole flop) = true
   ↔ openEndedOn (hasValue (hole ++ flop))) ∧
  (gutshot (straightDrawType hole flop) = true
   ↔ gutshotOn (hasValue (hole ++ flop))).
Proof.
  intros Hna. set (cards := hole ++ flop) in *.
  assert (Hlow : ∀ v, hasValue cards v → -1 < v).
  { intros v [(c & Hc & <-)|[_ (c & Hc & Hr)]].
    - pose proof (rankValue_range (rank c)). lia.
    - by destruct (Hna c Hc). }
  unfold straightDrawType. fold cards.
  pose proof (withWheel_strict cards) as Hs.
  pose proof (elem_of_withWheel cards) as Hmem.
  set (L := withWheel (uniqueSortedRankVals cards)) in *.
  assert (NoDup L) as Hnd.
  { unfold L, withWheel. rewrite sortAsc_perm. apply NoDup_wheel_input. }
  rewrite (foldl_setAdd_NoDup_id L []) by done. simpl app.
  destruct (foldl_drawStep_flags (comb4 L) (mkDraw false false)) as [Ho Hg].
  rewrite Ho, Hg. simpl. unfold openEndedOn, gutshotOn, fourOf. split; split.
  - intros [?|(q & (a & b & c & d & -> & (? & ? & ?) & Ha & Hb & Hc & Hd)
                     %elem_of_comb4 & Hq)]; [done| |done].
    apply drawStep_quadruple in Hq; [|done..|apply Hlow, Hmem, Ha].
    exists a, b, c, d. rewrite <- !Hmem. done.
  - intros (a & b & c & d & ((? & ? & ?) & Ha & Hb & Hc & Hd) & Hspan).
    right. exists [a; b; c; d]. split.
    + apply elem_of_comb4; [done|]. exists a, b, c, d. rewrite !Hmem. done.
    + apply drawStep_quadruple; [done..|by apply Hlow|done].
  - intros [?|(q & (a & b & c & d & -> & (? & ? & ?) & Ha & Hb & Hc & Hd)
                     %elem_of_comb4 & Hq)]; [done| |done].
    apply drawStep_quadruple in Hq; [|done..|apply Hlow, Hmem, Ha].
    exists a, b, c, d. rewrite <- !Hmem. done.
  - intros (a & b & c & d & ((? & ? & ?) & Ha & Hb & Hc & Hd) & Hspan).
    right. exists [a; b; c; d]. split.
    + apply elem_of_comb4; [done|]. exists a, b, c, d. rewrite !Hmem. done.
    + apply drawStep_quadruple; [done..|by apply Hlow|done].
Qed.

Lemma openEndedOn_impl (V V' : Z → Prop) :
  (∀ v, V v → V' v) → openEndedOn V → openEndedOn V'.
Proof.
  intros HVV (a & b & c & d & (Hlt & Ha & Hb & Hc & Hd) & Hspan).
  exists a, b, c, d. unfold fourOf. auto 10.
Qed.

Lemma no_four_span_three_wheel_gap :
  ¬ openEndedOn (fun v => v ∈ [-1; 0; 1; 3; 7; 12]).
Proof.
  intros (a & b & c & d & ((? & ? & ?) & Ha & Hb & Hc & Hd) & ?).
  cases_in Ha; cases_in Hd; cases_in Hb; cases_in Hc.
Qed.

Lemma no_four_span_three_low_zero :
  ¬ openEndedOn (fun v => v ∈ [0; 1; 3; 7; 12]).
Proof.
  intros (a & b & c & d & ((? & ? & ?) & Ha & Hb & Hc & Hd) & ?).
  cases_in Ha; cases_in Hd; cases_in Hb; cases_in Hc.
Qed.

(** C2 at the hand A♠ 2♥ on the flop 3♦ 5♣ 9♠: the values are -1, 0, 1, 3,
    7 and 12, no four of them span 3 (nor do four of 0, 1, 3, 7, 12), and
    -1, 0, 1, 3 span 4 with the one interior value 2 missing; yet
    [straightDrawType] sets the open-ended flag and not the gutshot flag,
    and [evalOnFlop] reports an open-ended draw with 8 outs. *)
Theorem straightDrawType_wheel_draw_flags :
  let hole := (card RA Spades, card R2 Hearts) in
  let flop := (card R3 Diamonds, card R5 Clubs, card R9 Spades) in
  let cards := holeCards hole ++ flopCards flop in
  straightDrawType (holeCards hole) (flopCards flop)
    = {| oesd := true; gutshot := false |} ∧
  drawLabel (evalOnFlop hole flop) = "Open-Ended Straight Draw" ∧
  outs (evalOnFlop hole flop) = 8 ∧
  ¬ openEndedOn (hasValue cards) ∧
  ¬ openEndedOn (hasValueLowZero cards) ∧
  gutshotOn (hasValue cards).
Proof.
  intros hole flop cards.
  assert (withWheel (uniqueSortedRankVals cards) = [-1; 0; 1; 3; 7; 12]) as E
    by (vm_compute; reflexivity).
  pose proof (hasValue_elem_of cards _ E) as HV.
  split; [vm_compute; reflexivity|].
  split; [vm_compute; reflexivity|].
  split; [vm_compute; reflexivity|].
  clearbody cards. clear E hole flop.
  split; [|split].
  - intros Ho. apply no_four_span_three_wheel_gap.
    revert Ho. apply openEndedOn_impl. intros v. apply HV.
  - intros Ho. apply no_four_span_three_low_zero.
    revert Ho. apply openEndedOn_impl. intros v (u & Hu%HV & ->).
    cases_in Hu; subst u; compute_done.
  - exists (-1), 0, 1, 3. unfold fourOf. rewrite !HV.
    split_and!; try lia; compute_done.
Qed.

(** ** Shuffling *)

Lemma swap_Permutation {T} (xs : list T) (i j : nat) (x y : T) :
  xs !! i = Some x → xs !! j = Some y →
  <[j := x]> (<[i := y]> xs) ≡ₚ xs.
Proof.
  intros Hi Hj. apply Permutation_inj. split; [by rewrite !length_insert|].
  pose proof (lookup_lt_Some _ _ _ Hi) as Hli.
  pose proof (lookup_lt_Some _ _ _ Hj) as Hlj.
  exists (fun n => if decide (n = j) then i else if decide (n = i) then j else n).
  split.
  - intros n m. repeat case_decide; intros; subst; congruence.
  - intros n. destruct (decide (n = j)) as [->|Hnj].
    + by rewrite list_lookup_insert_eq by (by rewrite length_insert).
    + rewrite list_lookup_insert_ne by done.
      destruct (decide (n = i)) as [->|Hni].
      * by rewrite list_lookup_insert_eq.
      * by rewrite list_lookup_insert_ne.
Qed.

Lemma Qfloor_scale_range (u : Q) (n : Z) :
  (0 <= u < 1)%Q → 0 < n → 0 ≤ Qfloor (u * inject_Z n) < n.
Proof.
  intros [Hu0 Hu1] Hn.
  assert (0 < inject_Z n)%Q as HnQ
    by (change (inject_Z 0 < inject_Z n)%Q; by rewrite <- Zlt_Qlt).
  split.
  - change 0 with (Qfloor 0). apply Qfloor_resp_le.
    apply Qmult_le_0_compat; [done|by apply Qlt_le_weak].
  - rewrite Zlt_Qlt. eapply Qle_lt_trans; [apply Qfloor_le|].
    rewrite <- (Qmult_1_l (inject_Z n)) at 2.
    by apply Qmult_lt_compat_r.
Qed.

Section ShuffleProperties.
Context {T : Type}.
Variable rnd : nat → Q.
Hypothesis rnd_range : ∀ n, (0 <= rnd n < 1)%Q.

Lemma bind_Some {A B} (m : M T A) (f : A → M T B) (w w' : World T) (x : A) :
  m w = Some (x, w') → (m ≫= f) w = f x w'.
Proof. intros Hm. unfold mbind, M_bind. by rewrite Hm. Qed.

Lemma randomBelow_Some (n : Z) (w : World T) :
  0 < n →
  ∃ j, 0 ≤ j < n ∧
    randomBelow rnd n w
    = Some (j, {| arrays := arrays w; drawn := S (drawn w) |}).
Proof.
  intros Hn. exists (Qfloor (rnd (drawn w) * inject_Z n)).
  split; [by apply Qfloor_scale_range|done].
Qed.

Lemma getAt_Some (a : nat) (i : nat) (w : World T) (xs : list T) (x : T) :
  arrays w !! a = Some xs → xs !! i = Some x →
  getAt a (Z.of_nat i) w = Some (x, w).
Proof.
  intros Ha Hx. unfold getAt. rewrite Ha.
  destruct (decide (0 ≤ Z.of_nat i)); [|lia]. by rewrite Nat2Z.id, Hx.
Qed.

Lemma setAt_Some (a : nat) (i : nat) (v : T) (w : World T) (xs : list T) :
  arrays w !! a = Some xs → (i < length xs)%nat →
  setAt a (Z.of_nat i) v w
  = Some (tt, {| arrays := <[a := <[i := v]> xs]> (arrays w);
                 drawn := drawn w |}).
Proof.
  intros Ha Hi. unfold setAt. rewrite Ha.
  destruct (decide (0 ≤ Z.of_nat i < Z.of_nat (length xs))); [|lia].
  by rewrite Nat2Z.id.
Qed.

(** The loop leaves a permutation in the array it works on and touches no
    other array. *)
Lemma shuffleLoop_Some (a : nat) : ∀ (i : nat) (w : World T) (xs : list T),
  arrays w !! a = Some xs → (i < length xs)%nat →
  ∃ ys, ys ≡ₚ xs ∧
    shuffleLoop rnd a i w
    = Some (tt, {| arrays := <[a := ys]> (arrays w);
                   drawn := (drawn w + i)%nat |}).
Proof.
  induction i as [|i IH]; intros w xs Ha Hi.
  - exists xs. split; [done|]. simpl. unfold mret, M_ret.
    rewrite list_insert_id by done. rewrite Nat.add_0_r. by destruct w.
  - cbn [shuffleLoop].
    destruct (randomBelow_Some (Z.of_nat (S i) + 1) w ltac:(lia))
      as (j & Hj & Erand).
    rewrite (bind_Some _ _ _ _ _ Erand).
    set (w1 := {| arrays := arrays w; drawn := S (drawn w) |}).
    assert (j = Z.of_nat (Z.to_nat j)) as Ej by lia.
    destruct (lookup_lt_is_Some_2 xs (Z.to_nat j) ltac:(lia)) as [aj Haj].
    destruct (lookup_lt_is_Some_2 xs (S i) ltac:(lia)) as [ai Hai].
    rewrite Ej.
    rewrite (bind_Some _ _ _ _ _ (getAt_Some a _ w1 xs aj Ha Haj)).
    rewrite (bind_Some _ _ _ _ _ (getAt_Some a _ w1 xs ai Ha Hai)).
    rewrite (bind_Some _ _ _ _ _ (setAt_Some a _ aj w1 xs Ha Hi)).
    set (w2 := {| arrays := <[a := <[S i := aj]> xs]> (arrays w1);
                  drawn := drawn w1 |}).
    assert (a < length (arrays w))%nat as Hla by (by eapply lookup_lt_Some).
    assert (arrays w2 !! a = Some (<[S i := aj]> xs)) as Ha2
      by (by apply list_lookup_insert_eq).
    rewrite (bind_Some _ _ _ _ _
               (setAt_Some a (Z.to_nat j) ai w2 _ Ha2
                  ltac:(rewrite length_insert; lia))).
    set (xs' := <[Z.to_nat j := ai]> (<[S i := aj]> xs)).
    set (w3 := {| arrays := <[a := xs']> (arrays w2); drawn := drawn w2 |}).
    assert (arrays w3 !! a = Some xs') as Ha3
      by (apply list_lookup_insert_eq; simpl; by rewrite length_insert).
    assert (xs' ≡ₚ xs) as Hperm by (by apply swap_Permutation).
    destruct (IH w3 xs' Ha3) as (ys & Hys & Eloop).
    { rewrite Hperm. lia. }
    exists ys. split; [by rewrite Hys|]. rewrite Eloop. simpl.
    rewrite !list_insert_insert_eq. do 3 f_equal. lia.
Qed.

Lemma shuffle_Some (arr : nat) (w : World T) (xs : list T) :
  arrays w !! arr = Some xs →
  ∃ ys, ys ≡ₚ xs ∧
    shuffle rnd arr w
    = Some (length (arrays w),
            {| arrays := arrays w ++ [ys];
               drawn := (drawn w + (length xs - 1))%nat |}).
Proof.
  intros Harr. unfold shuffle.
  assert (elementsOf arr w = Some (xs, w)) as E1
    by (unfold elementsOf; by rewrite Harr).
  rewrite (bind_Some _ _ _ _ _ E1).
  set (a := length (arrays w)).
  set (w1 := {| arrays := arrays w ++ [xs]; drawn := drawn w |}).
  assert (newArray xs w = Some (a, w1)) as E2 by done.
  rewrite (bind_Some _ _ _ _ _ E2).
  assert (arrays w1 !! a = Some xs) as Ha
    by (simpl; by rewrite lookup_app_r, Nat.sub_diag by done).
  assert (lengthOf a w1 = Some (length xs, w1)) as E3
    by (unfold lengthOf; by rewrite Ha).
  rewrite (bind_Some _ _ _ _ _ E3).
  destruct xs as [|x xs].
  - exists []. split; [done|]. simpl. unfold mbind, M_bind, mret, M_ret. simpl.
    do 3 f_equal. lia.
  - destruct (shuffleLoop_Some a (length (x :: xs) - 1) w1 (x :: xs) Ha
                ltac:(simpl; lia)) as (ys & Hys & Eloop).
    exists ys. split; [done|].
    rewrite (bind_Some _ _ _ _ _ Eloop). unfold mret, M_ret. simpl.
    do 3 f_equal. subst a.
    rewrite insert_app_r_alt, Nat.sub_diag by done. done.
Qed.

End ShuffleProperties.

Lemma makeDeck_distinct : NoDup makeDeck ∧ length makeDeck = 52%nat.
Proof. split; [compute_done|done]. Qed.

(** C9: for every array and every sequence of random draws (each in
    [0, 1)), [shuffle] returns a new array holding a permutation of the
    input, and leaves the input array, like every other array, as it was;
    in particular [shuffle(makeDeck())] holds the same 52 distinct cards as
    [makeDeck()]. *)
Theorem shuffle_permutation_of_copy {T : Type} (rnd : nat → Q) :
  (∀ n, (0 <= rnd n < 1)%Q) →
  (∀ (w : World T) (arr : nat) (xs : list T),
     arrays w !! arr = Some xs →
     ∃ (a : nat) (w' : World T) (ys : list T),
       shuffle rnd arr w = Some (a, w') ∧
       a ≠ arr ∧
       arrays w' !! a = Some ys ∧
       ys ≡ₚ xs ∧
       arrays w' !! arr = Some xs ∧
       ∀ b zs, arrays w !! b = Some zs → arrays w' !! b = Some zs) ∧
  (∀ w : World PlayingCard,
     ∃ (a : nat) (w' : World PlayingCard) (ys : list PlayingCard),
       (newArray makeDeck ≫= shuffle rnd) w = Some (a, w') ∧
       arrays w' !! a = Some ys ∧
       ys ≡ₚ makeDeck ∧ NoDup ys ∧ length ys = 52%nat ∧
       ∀ c, c ∈ ys ↔ c ∈ makeDeck).
Proof.
  intros Hrnd.
  assert (Hgen : ∀ T' (w : World T') (arr : nat) (xs : list T'),
     arrays w !! arr = Some xs →
     ∃ (a : nat) (w' : World T') (ys : list T'),
       shuffle rnd arr w = Some (a, w') ∧ a ≠ arr ∧
       arrays w' !! a = Some ys ∧ ys ≡ₚ xs ∧
       arrays w' !! arr = Some xs ∧
       ∀ b zs, arrays w !! b = Some zs → arrays w' !! b = Some zs).
  { intros T' w arr xs Harr.
    destruct (shuffle_Some rnd Hrnd arr w xs Harr) as (ys & Hys & E).
    pose proof (lookup_lt_Some _ _ _ Harr) as Hlt.
    eexists _, _, ys. split; [exact E|]. simpl. split_and!.
    - lia.
    - by rewrite lookup_app_r, Nat.sub_diag by done.
    - done.
    - by apply lookup_app_l_Some.
    - intros b zs Hb. by apply lookup_app_l_Some. }
  split; [apply Hgen|]. intros w.
  set (w1 := {| arrays := arrays w ++ [makeDeck]; drawn := drawn w |}).
  assert (newArray makeDeck w = Some (length (arrays w), w1)) as E1 by done.
  rewrite (bind_Some _ _ _ _ _ E1).
  destruct (Hgen _ w1 (length (arrays w)) makeDeck) as (a & w' & ys & E & _ & Ha & Hys & _).
  { simpl. by rewrite lookup_app_r, Nat.sub_diag by done. }
  exists a, w', ys. destruct makeDeck_distinct as [Hnd Hlen].
  split_and!; [done..| | |].
  - by rewrite Hys.
  - by rewrite Hys.
  - intros c. by rewrite Hys.
Qed.

Lemma sampleDraws_range (n : nat) : (0 <= sampleDraws n < 1)%Q.
Proof.
  unfold sampleDraws, Qle, Qlt. simpl.
  pose proof (Nat.mod_upper_bound (n * 7) 10 ltac:(done)). lia.
Qed.

Lemma shuffle_permutation_of_copy_witness :
  ∃ (a : nat) (w' : World Z) (ys : list Z),
    shuffle sampleDraws 0 {| arrays := [[10; 20; 30; 40; 50]]; drawn := 0 |}
    = Some (a, w') ∧
    a ≠ 0%nat ∧
    arrays w' !! a = Some ys ∧
    ys ≡ₚ [10; 20; 30; 40; 50] ∧
    arrays w' !! 0%nat = Some [10; 20; 30; 40; 50] ∧
    ∀ b zs, [[10; 20; 30; 40; 50]] !! b = Some zs → arrays w' !! b = Some zs.
Proof.
  apply (proj1 (shuffle_permutation_of_copy sampleDraws sampleDraws_range)
           {| arrays := [[10; 20; 30; 40; 50]]; drawn := 0 |} 0%nat).
  reflexivity.
Defined.

(** ** The spot generator *)

Lemma pick_Some (xs : list Z) (j : Z) :
  0 ≤ j < Z.of_nat (length xs) → ∃ x, pick xs j = Some x ∧ x ∈ xs.
Proof.
  intros Hj. unfold pick. destruct (decide (0 ≤ j)); [|lia].
  destruct (lookup_lt_is_Some_2 xs (Z.to_nat j) ltac:(lia)) as [x Hx].
  exists x. split; [done|]. by eapply list_elem_of_lookup_2.
Qed.

(** What [genSpot] returns, field by field: the deal is the head of a
    permutation of the deck, the sizes come from the two tables (and are
    zeroed outside the decision mode), and the solution is computed from
    them. *)
Lemma genSpot_Some (rnd : nat → Q) (mode : Mode) (w : World PlayingCard) :
  (∀ n, (0 <= rnd n < 1)%Q) →
  ∃ (spot : Spot) (w' : World PlayingCard) (ys : list PlayingCard) (p b : Z),
    genSpot rnd mode w = Some (spot, w') ∧
    ys ≡ₚ makeDeck ∧ p ∈ potSizes ∧ b ∈ betSizes ∧
    holeCards (hole spot) ++ flopCards (flop spot) = take 5 ys ∧
    pot spot = (if decide (mode = DECISION) then p else 0) ∧
    betToCall spot = (if decide (mode = DECISION) then b else 0) ∧
    let ev := evalOnFlop (hole spot) (flop spot) in
    let reqPct :=
      if decide (betToCall spot ≠ 0)
      then potOddsPct (pot spot) (betToCall spot) else 0%float in
    solution spot =
      {| Sol.bestHandLabel := bestHandLabel ev;
         Sol.drawLabel := drawLabel ev;
         Sol.outs := outs ev;
         Sol.improvementOuts := improvementOuts ev;
         Sol.potOddsPct := (mathRound (reqPct * 10) / 10)%float;
         Sol.decision :=
           if decide (mode = DECISION)
           then recommendDecision (bestHandLabel ev) (outs ev) reqPct
           else Call |}.
Proof.
  intros Hrnd. unfold genSpot.
  set (w1 := {| arrays := arrays w ++ [makeDeck]; drawn := drawn w |}).
  assert (newArray makeDeck w = Some (length (arrays w), w1)) as E1 by done.
  rewrite (bind_Some _ _ _ _ _ E1).
  assert (arrays w1 !! length (arrays w) = Some makeDeck) as Hd
    by (simpl; by rewrite lookup_app_r, Nat.sub_diag by done).
  destruct (shuffle_Some rnd Hrnd _ w1 makeDeck Hd) as (ys & Hys & E2).
  rewrite (bind_Some _ _ _ _ _ E2).
  set (deck := length (arrays w1)).
  set (w2 := {| arrays := arrays w1 ++ [ys]; drawn := _ |}).
  assert (arrays w2 !! deck = Some ys) as Hdeck
    by (simpl; by rewrite lookup_app_r, Nat.sub_diag by done).
  assert (length ys = 52%nat) as Hlen by (by rewrite Hys).
  destruct ys as [|c0 [|c1 [|c2 [|c3 [|c4 ys]]]]]; simpl in Hlen; try lia.
  rewrite (bind_Some _ _ _ _ _ (getAt_Some deck 0 w2 _ c0 Hdeck eq_refl)).
  rewrite (bind_Some _ _ _ _ _ (getAt_Some deck 1 w2 _ c1 Hdeck eq_refl)).
  rewrite (bind_Some _ _ _ _ _ (getAt_Some deck 2 w2 _ c2 Hdeck eq_refl)).
  rewrite (bind_Some _ _ _ _ _ (getAt_Some deck 3 w2 _ c3 Hdeck eq_refl)).
  rewrite (bind_Some _ _ _ _ _ (getAt_Some deck 4 w2 _ c4 Hdeck eq_refl)).
  destruct (randomBelow_Some rnd Hrnd 6 w2 ltac:(lia)) as (i & Hi & E3).
  rewrite (bind_Some _ _ _ _ _ E3).
  destruct (pick_Some potSizes i ltac:(simpl; lia)) as (p & Ep & Hp).
  set (w3 := {| arrays := arrays w2; drawn := S (drawn w2) |}).
  rewrite Ep, (bind_Some _ _ w3 w3 p eq_refl).
  destruct (randomBelow_Some rnd Hrnd 5 w3 ltac:(lia)) as (k & Hk & E4).
  rewrite (bind_Some _ _ _ _ _ E4).
  destruct (pick_Some betSizes k ltac:(simpl; lia)) as (b & Eb & Hb).
  set (w4 := {| arrays := arrays w3; drawn := S (drawn w3) |}).
  rewrite Eb, (bind_Some _ _ w4 w4 b eq_refl).
  unfold mret, M_ret.
  eexists _, _, (c0 :: c1 :: c2 :: c3 :: c4 :: ys), p, b.
  split; [reflexivity|]. split_and!; [done..| | |]; cbn [pot betToCall solution hole flop].
  - destruct mode; repeat case_decide; first [done|intuition congruence].
  - destruct mode; repeat case_decide; first [done|intuition congruence].
  - destruct mode; repeat case_decide; first [done|intuition congruence].
Qed.

Lemma betSizes_pos (b : Z) : b ∈ betSizes → 0 < b.
Proof. intros Hb. unfold betSizes in Hb. cases_in Hb; lia. Qed.

Lemma potSizes_pos (p : Z) : p ∈ potSizes → 0 < p.
Proof. intros Hp. unfold potSizes in Hp. cases_in Hp; lia. Qed.

(** C8, as the code has it: in the decision mode, on the draws
    [sampleDraws], the spot has pot 100 and bet 20; the pot odds are
    20 / 120 × 100 = 16.66..., and the stored [potOddsPct] is 167 / 10. *)
Lemma genSpot_potOddsPct_counterexample :
  match genSpot sampleDraws DECISION startWorld with
  | Some (spot, _) =>
      pot spot = 100 ∧ betToCall spot = 20 ∧
      Sol.potOddsPct (solution spot) = (167 / 10)%float ∧
      Sol.potOddsPct (solution spot)
        ≠ potOddsPct (pot spot) (betToCall spot)
  | None => False
  end.
Proof. vm_compute. split_and!; [done..|]. intros H. discriminate H. Qed.

(** C8, amended: for every mode and every sequence of draws, [genSpot]
    returns a spot whose stored [potOddsPct] is the pot-odds function of the
    spot's own [pot] and [betToCall] rounded to one decimal,
    [Math.round(x * 10) / 10], when [betToCall > 0], and 0 when
    [betToCall = 0]. *)
Theorem genSpot_potOddsPct_rounded
    (rnd : nat → Q) (mode : Mode) (w : World PlayingCard) :
  (∀ n, (0 <= rnd n < 1)%Q) →
  ∃ (spot : Spot) (w' : World PlayingCard),
    genSpot rnd mode w = Some (spot, w') ∧
    0 ≤ betToCall spot ∧
    (0 < betToCall spot →
     Sol.potOddsPct (solution spot)
     = (mathRound (potOddsPct (pot spot) (betToCall spot) * 10) / 10)%float) ∧
    (betToCall spot = 0 → Sol.potOddsPct (solution spot) = 0%float).
Proof.
  intros Hrnd.
  destruct (genSpot_Some rnd mode w Hrnd)
    as (spot & w' & ys & p & b & E & _ & _ & Hb%betSizes_pos & _ & _ & Hbet & Hsol).
  exists spot, w'. split; [done|]. cbv zeta in Hsol. rewrite Hsol.
  cbn [Sol.potOddsPct]. split_and!.
  - rewrite Hbet. destruct (decide (mode = DECISION)); lia.
  - intros Hpos. by rewrite decide_True by lia.
  - intros ->. by vm_compute.
Qed.

Lemma genSpot_potOddsPct_rounded_witness :
  ∃ (spot : Spot) (w' : World PlayingCard),
    genSpot sampleDraws DECISION startWorld = Some (spot, w') ∧
    0 ≤ betToCall spot ∧
    (0 < betToCall spot →
     Sol.potOddsPct (solution spot)
     = (mathRound (potOddsPct (pot spot) (betToCall spot) * 10) / 10)%float) ∧
    (betToCall spot = 0 → Sol.potOddsPct (solution spot) = 0%float).
Proof.
  exact (genSpot_potOddsPct_rounded sampleDraws DECISION startWorld
           sampleDraws_range).
Defined.

Lemma potOdds_finite (p b : Z) :
  p ∈ potSizes → b ∈ betSizes →
  is_finite (mathRound (potOddsPct p b * 10) / 10)%float = true.
Proof.
  intros Hp Hb. unfold potSizes in Hp. unfold betSizes in Hb.
  cases_in Hp; cases_in Hb; subst; by vm_compute.
Qed.

(** C10: [potOddsPct] divides with no guard of its own (on a zero pot and a
    zero bet it yields NaN); [genSpot] evaluates it only on a nonzero bet,
    which is then positive with a positive [pot + betToCall], and otherwise
    takes 0; the stored [potOddsPct] is always a finite number, never NaN. *)
Theorem genSpot_potOddsPct_finite
    (rnd : nat → Q) (mode : Mode) (w : World PlayingCard) :
  (∀ n, (0 <= rnd n < 1)%Q) →
  is_nan (potOddsPct 0 0) = true ∧
  ∃ (spot : Spot) (w' : World PlayingCard),
    genSpot rnd mode w = Some (spot, w') ∧
    (betToCall spot ≠ 0 →
     0 < betToCall spot ∧ 0 < pot spot + betToCall spot) ∧
    Sol.potOddsPct (solution spot)
    = (mathRound
         ((if decide (betToCall spot ≠ 0%Z)
           then potOddsPct (pot spot) (betToCall spot) else 0) * 10) / 10)%float ∧
    is_finite (Sol.potOddsPct (solution spot)) = true ∧
    is_nan (Sol.potOddsPct (solution spot)) = false.
Proof.
  intros Hrnd. split; [by vm_compute|].
  destruct (genSpot_Some rnd mode w Hrnd)
    as (spot & w' & ys & p & b & E & _ & Hp & Hb & _ & Hpot & Hbet & Hsol).
  exists spot, w'. split; [done|]. cbv zeta in Hsol. rewrite Hsol.
  cbn [Sol.potOddsPct].
  pose proof (betSizes_pos b Hb). pose proof (potSizes_pos p Hp).
  split; [rewrite Hpot, Hbet; destruct (decide (mode = DECISION)); lia|].
  split; [done|].
  assert (is_finite
            (mathRound
               ((if decide (betToCall spot ≠ 0%Z)
                 then potOddsPct (pot spot) (betToCall spot) else 0) * 10) / 10)%float
          = true) as Hfin.
  { rewrite Hpot, Hbet. destruct (decide (mode = DECISION)).
    - rewrite decide_True by lia. by apply potOdds_finite.
    - by vm_compute. }
  split; [done|].
  unfold is_finite in Hfin. apply negb_true_iff, orb_false_iff in Hfin. tauto.
Qed.

Lemma genSpot_potOddsPct_finite_witness :
  is_nan (potOddsPct 0 0) = true ∧
  ∃ (spot : Spot) (w' : World PlayingCard),
    genSpot sampleDraws HAND startWorld = Some (spot, w') ∧
    (betToCall spot ≠ 0 →
     0 < betToCall spot ∧ 0 < pot spot + betToCall spot) ∧
    Sol.potOddsPct (solution spot)
    = (mathRound
         ((if decide (betToCall spot ≠ 0%Z)
           then potOddsPct (pot spot) (betToCall spot) else 0) * 10) / 10)%float ∧
    is_finite (Sol.potOddsPct (solution spot)) = true ∧
    is_nan (Sol.potOddsPct (solution spot)) = false.
Proof.
  exact (genSpot_potOddsPct_finite sampleDraws HAND startWorld
           sampleDraws_range).
Defined.

(** * Further properties of the evaluator *)

(** ** The evaluator reads ranks and suits only *)

Lemma held_fmap {K} `{EqDecision K} (key : PlayingCard → K) (k : K)
    (cards : list PlayingCard) :
  held key k cards = length (filter (fun x => x = k) (key <$> cards)).
Proof.
  unfold held. induction cards as [|c cards IH]; [done|].
  rewrite fmap_cons, !filter_cons. simpl.
  destruct (decide (key c = k)); simpl; by rewrite IH.
Qed.

Lemma held_perm {K} `{EqDecision K} (key : PlayingCard → K) (k : K)
    (cards cards' : list PlayingCard) :
  key <$> cards ≡ₚ key <$> cards' → held key k cards = held key k cards'.
Proof. intros Hp. by rewrite !held_fmap, Hp. Qed.

Lemma count_map_perm `{Countable K} (key : PlayingCard → K)
    (cards cards' : list PlayingCard) :
  key <$> cards ≡ₚ key <$> cards' →
  foldl (fun m c => bump m (key c)) ∅ cards
  = foldl (fun m c => bump m (key c)) ∅ cards'.
Proof.
  intros Hp. apply map_eq. intros k.
  by rewrite !lookup_count, (held_perm key k cards cards' Hp).
Qed.

Lemma sortAsc_same_elements (l1 l2 : list Z) :
  NoDup l1 → NoDup l2 → (∀ v, v ∈ l1 ↔ v ∈ l2) → sortAsc l1 = sortAsc l2.
Proof.
  intros H1 H2 Hel. apply (StronglySorted_unique Z.le).
  - apply (StronglySorted_merge_sort Z.le).
  - apply (StronglySorted_merge_sort Z.le).
  - rewrite !sortAsc_perm. by apply NoDup_Permutation.
Qed.

Lemma rankValues_fmap (l : list PlayingCard) :
  (fun c => rankValue (rank c)) <$> l = rankValue <$> (rank <$> l).
Proof. induction l as [|c l IH]; [done|]. simpl. f_equal. exact IH. Qed.

Lemma uniqueSortedRankVals_perm (cards cards' : list PlayingCard) :
  rank <$> cards ≡ₚ rank <$> cards' →
  uniqueSortedRankVals cards = uniqueSortedRankVals cards'.
Proof.
  intros Hp. unfold uniqueSortedRankVals. rewrite !rankSet_fold.
  apply sortAsc_same_elements;
    [apply NoDup_foldl_setAdd, NoDup_nil_2..|].
  intros v. rewrite !elem_of_foldl_setAdd, !rankValues_fmap.
  by rewrite Hp.
Qed.

(** X1: [evalOnFlop] depends on the five cards only through the multiset
    of their (rank, suit) pairs: neither the order of the deal, nor which
    cards are in the hole, nor the [id] strings change any field of the
    result. *)
Theorem evalOnFlop_deal_order (hole hole' : Hole) (flop flop' : Flop) :
  (fun c => (rank c, suit c)) <$> (holeCards hole ++ flopCards flop)
  ≡ₚ (fun c => (rank c, suit c)) <$> (holeCards hole' ++ flopCards flop') →
  evalOnFlop hole flop = evalOnFlop hole' flop'.
Proof.
  set (cards := holeCards hole ++ flopCards flop).
  set (cards' := holeCards hole' ++ flopCards flop').
  intros Hp.
  assert (rank <$> cards ≡ₚ rank <$> cards') as Hr.
  { apply (fmap_Permutation fst) in Hp.
    by rewrite <- !(list_fmap_compose (fun c => (rank c, suit c)) fst) in Hp. }
  assert (suit <$> cards ≡ₚ suit <$> cards') as Hs.
  { apply (fmap_Permutation snd) in Hp.
    by rewrite <- !(list_fmap_compose (fun c => (rank c, suit c)) snd) in Hp. }
  unfold evalOnFlop, straightDrawType, isMadeStraight, isMadeFlush,
    hasPairTripsQuads, countByRank, countBySuit.
  fold cards cards'.
  rewrite (count_map_perm rank cards cards' Hr),
    (count_map_perm suit cards cards' Hs),
    (uniqueSortedRankVals_perm cards cards' Hr).
  reflexivity.
Qed.

Lemma evalOnFlop_deal_order_witness :
  evalOnFlop (card RA Spades, card RK Spades)
             (card RQ Spades, card RJ Spades, card R2 Hearts)
  = evalOnFlop (mkCard R2 Hearts "x", card RJ Spades)
               (card RA Spades, card RQ Spades, card RK Spades).
Proof.
  apply evalOnFlop_deal_order. simpl.
  apply NoDup_Permutation; [compute_done..|]. intros x.
  rewrite !elem_of_cons, !elem_of_nil. tauto.
Defined.

(** ** The solution is among the offered answers *)

Lemma evalOnFlop_draw_table (hole : Hole) (flop : Flop) :
  ∃ d, drawLabel (evalOnFlop hole flop) = drawName d ∧
       outs (evalOnFlop hole flop) = drawOuts d.
Proof.
  unfold evalOnFlop. cbn [drawLabel outs].
  destruct (negb _ && negb _);
    [|by exists NoDraw].
  destruct (bool_decide _),
    (oesd (straightDrawType (holeCards hole) (flopCards flop))),
    (gutshot (straightDrawType (holeCards hole) (flopCards flop)));
    cbn [andb fst snd];
    first [ by exists ComboDraw | by exists FlushDraw | by exists OpenEnded
          | by exists Gutshot | by exists NoDraw ].
Qed.

Lemma evalOnFlop_labels (hole : Hole) (flop : Flop) :
  bestHandLabel (evalOnFlop hole flop) ∈ HAND_OPTIONS ∧
  drawLabel (evalOnFlop hole flop) ∈ DRAW_OPTIONS.
Proof.
  split.
  - destruct (evalOnFlop_classified hole flop) as (h & -> & _).
    destruct h; compute_done.
  - destruct (evalOnFlop_draw_table hole flop) as (d & -> & _).
    destruct d; compute_done.
Qed.

(** X2: for every hole and flop, the hand label is one of [HAND_OPTIONS],
    the draw label one of [DRAW_OPTIONS], the draw outs are those of the
    outs table for that draw label (so at most 15), and they are 0 exactly
    when the draw label is None. *)
Theorem evalOnFlop_within_options (hole : Hole) (flop : Flop) :
  bestHandLabel (evalOnFlop hole flop) ∈ HAND_OPTIONS ∧
  drawLabel (evalOnFlop hole flop) ∈ DRAW_OPTIONS ∧
  (∃ d, drawLabel (evalOnFlop hole flop) = drawName d ∧
        outs (evalOnFlop hole flop) = drawOuts d) ∧
  0 ≤ outs (evalOnFlop hole flop) ≤ 15 ∧
  (outs (evalOnFlop hole flop) = 0 ↔ drawLabel (evalOnFlop hole flop) = "None").
Proof.
  destruct (evalOnFlop_labels hole flop) as [Hh Hd].
  destruct (evalOnFlop_draw_table hole flop) as (d & Hl & Ho).
  split; [done|]. split; [done|]. rewrite Hl, Ho. split_and!.
  - by exists d.
  - destruct d; simpl; lia.
  - destruct d; simpl; lia.
  - destruct d; simpl; split; (done || lia).
Qed.

(** ** Small inputs *)

Lemma held_le_length {K} `{EqDecision K} (key : PlayingCard → K) (k : K)
    (cards : list PlayingCard) :
  (held key k cards ≤ length cards)%nat.
Proof. apply length_filter. Qed.

(** A card behind each value of the set, its rank value being the value
    itself or, for the low Ace, 12. *)
Lemma hasValue_card (cards : list PlayingCard) (v : Z) :
  hasValue cards v →
  ∃ c, c ∈ cards ∧ rankValue (rank c) = (if decide (v = -1) then 12 else v).
Proof.
  intros [(c & Hc & Hv)|(-> & c & Hc & Hr)].
  - exists c. split; [done|]. pose proof (rankValue_range (rank c)).
    destruct (decide (v = -1)); [lia|done].
  - exists c. split; [done|]. by apply rankValue_ace.
Qed.

Lemma hasValue_range (cards : list PlayingCard) (v : Z) :
  hasValue cards v → -1 ≤ v ≤ 12.
Proof.
  intros [(c & _ & <-)|(-> & _)]; [|lia].
  pose proof (rankValue_range (rank c)). lia.
Qed.

Lemma straightMade_five_cards (cards : list PlayingCard) :
  straightMade cards → (5 ≤ length cards)%nat.
Proof.
  intros (k & Hk).
  pose proof (hasValue_range _ _ (Hk 0 ltac:(lia))).
  pose proof (hasValue_range _ _ (Hk 4 ltac:(lia))).
  destruct (hasValue_card _ _ (Hk 0 ltac:(lia))) as (c0 & Hc0 & E0).
  destruct (hasValue_card _ _ (Hk 1 ltac:(lia))) as (c1 & Hc1 & E1).
  destruct (hasValue_card _ _ (Hk 2 ltac:(lia))) as (c2 & Hc2 & E2).
  destruct (hasValue_card _ _ (Hk 3 ltac:(lia))) as (c3 & Hc3 & E3).
  destruct (hasValue_card _ _ (Hk 4 ltac:(lia))) as (c4 & Hc4 & E4).
  assert (NoDup [c0; c1; c2; c3; c4]) as Hnd.
  { repeat case_decide;
      repeat (apply NoDup_cons; split;
              [rewrite ?elem_of_cons, elem_of_nil; intros Hin;
               repeat destruct Hin as [Hin|Hin]; try done; subst; lia|]);
      apply NoDup_nil_2. }
  assert ([c0; c1; c2; c3; c4] ⊆+ cards) as Hsub.
  { apply NoDup_submseteq; [done|]. intros x.
    rewrite !elem_of_cons, elem_of_nil. intros [->|[->|[->|[->|[->|[]]]]]]; done. }
  apply submseteq_length in Hsub. simpl in Hsub. lia.
Qed.

(** X3: on fewer than five cards the classifier finds neither a flush nor
    a straight (the empty list included). *)
Theorem no_flush_no_straight_below_five (cards : list PlayingCard) :
  (length cards < 5)%nat →
  isMadeFlush cards = false ∧ isMadeStraight cards = false.
Proof.
  intros Hlen. split; apply not_true_is_false.
  - rewrite isMadeFlush_iff. intros (s & Hs).
    pose proof (held_le_length suit s cards). unfold suitCount in Hs. lia.
  - rewrite isMadeStraight_iff. intros Hs%straightMade_five_cards. lia.
Qed.

Lemma no_flush_no_straight_below_five_witness :
  isMadeFlush [card RA Spades; card RK Spades; card RQ Spades; card RJ Spades]
  = false ∧
  isMadeStraight [card RA Spades; card RK Spades; card RQ Spades; card RJ Spades]
  = false.
Proof.
  apply no_flush_no_straight_below_five. simpl. lia.
Defined.

(** ** A made straight holds an open-ended window *)

Lemma oesd_of_quadruple (hole flop : list PlayingCard) (a b c d : Z) :
  fourOf (hasValue (hole ++ flop)) a b c d → -1 < a → d - a = 3 →
  oesd (straightDrawType hole flop) = true.
Proof.
  intros ((Hab & Hbc & Hcd) & Ha & Hb & Hc & Hd) Hlow Hspan.
  set (cards := hole ++ flop) in *.
  unfold straightDrawType. fold cards.
  pose proof (withWheel_strict cards) as Hs.
  pose proof (elem_of_withWheel cards) as Hmem.
  set (L := withWheel (uniqueSortedRankVals cards)) in *.
  assert (NoDup L) as Hnd.
  { unfold L, withWheel. rewrite sortAsc_perm. apply NoDup_wheel_input. }
  rewrite (foldl_setAdd_NoDup_id L []) by done. simpl app.
  apply (foldl_drawStep_flags (comb4 L)). right.
  exists [a; b; c; d]. split.
  - apply elem_of_comb4; [done|]. exists a, b, c, d. rewrite !Hmem. done.
  - by apply drawStep_quadruple.
Qed.

(** X4: whenever the cards make a straight, the straight-draw detector
    sets its open-ended flag on them: four of the five consecutive values
    span 3. Only the guard of [evalOnFlop] keeps a made straight from being
    reported as a draw. *)
Theorem made_straight_sets_oesd (hole flop : list PlayingCard) :
  isMadeStraight (hole ++ flop) = true →
  oesd (straightDrawType hole flop) = true.
Proof.
  intros (k & Hk)%isMadeStraight_iff.
  pose proof (hasValue_range _ _ (Hk 0 ltac:(lia))).
  destruct (decide (k = -1)) as [->|Hne].
  - apply (oesd_of_quadruple hole flop 0 1 2 3); [|lia..].
    split; [lia|].
    split_and!; [apply (Hk 1)|apply (Hk 2)|apply (Hk 3)|apply (Hk 4)]; lia.
  - apply (oesd_of_quadruple hole flop k (k + 1) (k + 2) (k + 3)); [|lia..].
    split; [lia|].
    split_and!; [replace k with (k + 0) by lia; apply Hk|apply Hk..]; lia.
Qed.

Lemma made_straight_sets_oesd_witness :
  oesd (straightDrawType [card RA Spades; card R2 Hearts]
                         [card R3 Diamonds; card R4 Clubs; card R5 Spades])
  = true.
Proof.
  apply made_straight_sets_oesd. vm_compute. reflexivity.
Defined.

(** ** Pairs, trips and quads share the cards *)

Lemma sum_held_ranks (cards : list PlayingCard) :
  sum_list ((fun r => rankCount r cards) <$> RANKS) = length cards.
Proof.
  induction cards as [|c cards IH]; [done|].
  simpl length. rewrite <- IH. clear IH.
  unfold rankCount, held, RANKS. simpl fmap. rewrite !filter_cons.
  destruct c as [r s i]. simpl rank.
  destruct r; simpl; lia.
Qed.

Lemma weighted_counts_le_sum (cnt : Rank → nat) (rs : list Rank) :
  (2 * length (filter (fun r => cnt r = 2) rs)
   + 3 * length (filter (fun r => cnt r = 3) rs)
   + 4 * length (filter (fun r => cnt r = 4) rs)
   ≤ sum_list (cnt <$> rs))%nat.
Proof.
  induction rs as [|r rs IH]; [simpl; lia|].
  rewrite fmap_cons, !filter_cons. simpl sum_list.
  repeat case_decide; simpl length; lia.
Qed.

(** X5: the ranks counted as pairs, trips and quads are different ranks
    of the cards given, so [2 * pairs + 3 * trips + 4 * quads] never exceeds
    the number of cards; on the five cards of a hole and a flop there is at
    most one quads rank and then nothing else, at most one trips rank and at
    most two pair ranks. *)
Theorem hasPairTripsQuads_weight (cards : list PlayingCard) :
  let ptq := hasPairTripsQuads cards in
  (2 * pairs ptq + 3 * trips ptq + 4 * quads ptq ≤ length cards)%nat ∧
  (length cards = 5%nat →
   (quads ptq ≤ 1 ∧ trips ptq ≤ 1 ∧ pairs ptq ≤ 2)%nat ∧
   (quads ptq = 1%nat → trips ptq = 0%nat ∧ pairs ptq = 0%nat) ∧
   (trips ptq = 1%nat → (pairs ptq ≤ 1)%nat)).
Proof.
  rewrite hasPairTripsQuads_counts. cbv zeta. cbn [pairs trips quads].
  pose proof (weighted_counts_le_sum (fun r => rankCount r cards) RANKS) as Hw.
  rewrite sum_held_ranks in Hw. unfold ranksHeld.
  split; [exact Hw|]. intros Hlen. rewrite Hlen in Hw. lia.
Qed.

Lemma hasPairTripsQuads_weight_witness :
  let ptq := hasPairTripsQuads
               [card R7 Spades; card R7 Hearts; card R7 Clubs;
                card R5 Diamonds; card R5 Hearts] in
  (quads ptq ≤ 1 ∧ trips ptq ≤ 1 ∧ pairs ptq ≤ 2)%nat ∧
  (quads ptq = 1%nat → trips ptq = 0%nat ∧ pairs ptq = 0%nat) ∧
  (trips ptq = 1%nat → (pairs ptq ≤ 1)%nat).
Proof.
  apply (proj2 (hasPairTripsQuads_weight
                  [card R7 Spades; card R7 Hearts; card R7 Clubs;
                   card R5 Diamonds; card R5 Hearts])).
  reflexivity.
Defined.

(** ** The deck *)

(** X6: [makeDeck] holds every (rank, suit) pair exactly once, each card
    carrying the id made of its rank and its suit; so it has 52 cards with
    pairwise distinct ids. *)
Theorem makeDeck_integrity :
  (∀ r s, length (filter (fun c => rank c = r ∧ suit c = s) makeDeck) = 1%nat) ∧
  (∀ c, c ∈ makeDeck → c = card (rank c) (suit c)) ∧
  length makeDeck = 52%nat ∧
  NoDup (id <$> makeDeck).
Proof.
  split_and!.
  - intros r s. destruct r, s; vm_compute; reflexivity.
  - apply Forall_forall. compute_done.
  - reflexivity.
  - compute_done.
Qed.

(** ** What the generator deals and stores *)

(** X7: for every mode and every sequence of draws, [genSpot] deals five
    pairwise distinct cards, all of them cards of [makeDeck]: no card serves
    twice across the hole and the flop. *)
Theorem genSpot_deals_distinct_cards
    (rnd : nat → Q) (mode : Mode) (w : World PlayingCard) :
  (∀ n, (0 <= rnd n < 1)%Q) →
  ∃ (spot : Spot) (w' : World PlayingCard),
    genSpot rnd mode w = Some (spot, w') ∧
    NoDup (holeCards (hole spot) ++ flopCards (flop spot)) ∧
    NoDup (id <$> holeCards (hole spot) ++ flopCards (flop spot)) ∧
    ∀ c, c ∈ holeCards (hole spot) ++ flopCards (flop spot) → c ∈ makeDeck.
Proof.
  intros Hrnd.
  destruct (genSpot_Some rnd mode w Hrnd)
    as (spot & w' & ys & p & b & E & Hys & _ & _ & Hcards & _).
  exists spot, w'. split; [done|]. rewrite Hcards.
  assert (NoDup (id <$> ys)) as Hid.
  { rewrite Hys. compute_done. }
  rewrite <- (take_drop 5 ys), fmap_app in Hid.
  apply NoDup_app in Hid as [Hid _].
  split_and!.
  - by apply NoDup_fmap_1 in Hid.
  - done.
  - intros c Hc%(subseteq_take 5 ys). by rewrite <- Hys.
Qed.

Lemma genSpot_deals_distinct_cards_witness :
  ∃ (spot : Spot) (w' : World PlayingCard),
    genSpot sampleDraws OUTS startWorld = Some (spot, w') ∧
    NoDup (holeCards (hole spot) ++ flopCards (flop spot)) ∧
    NoDup (id <$> holeCards (hole spot) ++ flopCards (flop spot)) ∧
    ∀ c, c ∈ holeCards (hole spot) ++ flopCards (flop spot) → c ∈ makeDeck.
Proof.
  exact (genSpot_deals_distinct_cards sampleDraws OUTS startWorld
           sampleDraws_range).
Defined.

(** X8: the solution of a generated spot is the evaluation of the spot's
    own cards, its labels are among the offered options; outside the
    decision mode pot, bet and stored pot odds are 0 and the decision is
    Call; in the decision mode pot and bet come from the two size tables
    and the decision is [recommendDecision] on the unrounded pot odds of
    the spot's own pot and bet. *)
Theorem genSpot_solution_consistent
    (rnd : nat → Q) (mode : Mode) (w : World PlayingCard) :
  (∀ n, (0 <= rnd n < 1)%Q) →
  ∃ (spot : Spot) (w' : World PlayingCard),
    genSpot rnd mode w = Some (spot, w') ∧
    let ev := evalOnFlop (hole spot) (flop spot) in
    let sol := solution spot in
    (Sol.bestHandLabel sol = bestHandLabel ev ∧
     Sol.drawLabel sol = drawLabel ev ∧
     Sol.outs sol = outs ev ∧
     Sol.improvementOuts sol = improvementOuts ev) ∧
    (Sol.bestHandLabel sol ∈ HAND_OPTIONS ∧ Sol.drawLabel sol ∈ DRAW_OPTIONS) ∧
    (mode ≠ DECISION →
     pot spot = 0 ∧ betToCall spot = 0 ∧
     Sol.potOddsPct sol = 0%float ∧ Sol.decision sol = Call) ∧
    (mode = DECISION →
     pot spot ∈ potSizes ∧ betToCall spot ∈ betSizes ∧
     Sol.decision sol
     = recommendDecision (bestHandLabel ev) (outs ev)
         (potOddsPct (pot spot) (betToCall spot))).
Proof.
  intros Hrnd.
  destruct (genSpot_Some rnd mode w Hrnd)
    as (spot & w' & ys & p & b & E & _ & Hp & Hb & _ & Hpot & Hbet & Hsol).
  exists spot, w'. split; [done|]. cbv zeta in Hsol |- *. rewrite Hsol.
  cbn [Sol.bestHandLabel Sol.drawLabel Sol.outs Sol.improvementOuts
       Sol.potOddsPct Sol.decision].
  pose proof (evalOnFlop_labels (hole spot) (flop spot)) as (Hh & Hd).
  pose proof (betSizes_pos b Hb).
  split; [repeat split|]. split; [split; assumption|]. split.
  - intros Hm. rewrite Hpot, Hbet.
    destruct (decide (mode = DECISION)); [contradiction|].
    rewrite decide_False by lia. repeat split.
  - intros Hm. rewrite Hpot, Hbet.
    destruct (decide (mode = DECISION)); [|contradiction].
    split; [exact Hp|]. split; [exact Hb|].
    rewrite decide_True by lia. reflexivity.
Qed.

Lemma genSpot_solution_consistent_witness :
  ∃ (spot : Spot) (w' : World PlayingCard),
    genSpot sampleDraws DECISION startWorld = Some (spot, w') ∧
    let ev := evalOnFlop (hole spot) (flop spot) in
    let sol := solution spot in
    (Sol.bestHandLabel sol = bestHandLabel ev ∧
     Sol.drawLabel sol = drawLabel ev ∧
     Sol.outs sol = outs ev ∧
     Sol.improvementOuts sol = improvementOuts ev) ∧
    (Sol.bestHandLabel sol ∈ HAND_OPTIONS ∧ Sol.drawLabel sol ∈ DRAW_OPTIONS) ∧
    (DECISION ≠ DECISION →
     pot spot = 0 ∧ betToCall spot = 0 ∧
     Sol.potOddsPct sol = 0%float ∧ Sol.decision sol = Call) ∧
    (DECISION = DECISION →
     pot spot ∈ potSizes ∧ betToCall spot ∈ betSizes ∧
     Sol.decision sol
     = recommendDecision (bestHandLabel ev) (outs ev)
         (potOddsPct (pot spot) (betToCall spot))).
Proof.
  exact (genSpot_solution_consistent sampleDraws DECISION startWorld
           sampleDraws_range).
Defined.

Lemma no_draw_price_too_high (p b : Z) :
  p ∈ potSizes → b ∈ betSizes →
  (potOddsPct p b <=? num (Z.min 100 (0 * 4) + 2))%float = false.
Proof.
  intros Hp Hb. unfold potSizes in Hp. unfold betSizes in Hb.
  cases_in Hp; cases_in Hb; subst; by vm_compute.
Qed.

(** X9: in the decision mode, a generated spot whose hand is High Card or
    One Pair with no draw is always a Fold (the cheapest price offered,
    10 into 120, is above the 2% margin), and a spot is a Raise exactly when
    its hand is Two Pair or better or its draw is the combo draw. *)
Theorem genSpot_decision_table
    (rnd : nat → Q) (w : World PlayingCard) :
  (∀ n, (0 <= rnd n < 1)%Q) →
  ∃ (spot : Spot) (w' : World PlayingCard),
    genSpot rnd DECISION w = Some (spot, w') ∧
    let sol := solution spot in
    (Sol.bestHandLabel sol ∈ ["High Card"; "One Pair"] →
     Sol.drawLabel sol = "None" → Sol.decision sol = Fold) ∧
    (Sol.decision sol = Raise ↔
     Sol.bestHandLabel sol ∈ strongMadeLabels ∨
     Sol.drawLabel sol = "Combo Draw (Flush + Straight)").
Proof.
  intros Hrnd.
  destruct (genSpot_Some rnd DECISION w Hrnd)
    as (spot & w' & ys & p & b & E & _ & Hp & Hb & _ & Hpot & Hbet & Hsol).
  exists spot, w'. split; [done|]. cbv zeta in Hsol |- *. rewrite Hsol.
  cbn [Sol.bestHandLabel Sol.drawLabel Sol.outs Sol.decision].
  rewrite decide_True in Hpot, Hbet by done.
  pose proof (betSizes_pos b Hb).
  rewrite !decide_True by (done || lia). rewrite Hpot, Hbet.
  destruct (evalOnFlop_draw_table (hole spot) (flop spot)) as (d & Hl & Ho).
  rewrite Hl, Ho. unfold recommendDecision, approxEquityFromOuts. split.
  - intros Hweak Hnone. rewrite bool_decide_eq_false_2.
    + destruct d; try discriminate Hnone. simpl drawOuts.
      rewrite decide_False by lia. by rewrite no_draw_price_too_high.
    + intros Hs. unfold strongMadeLabels in Hs.
      rewrite !elem_of_cons, elem_of_nil in Hweak.
      destruct Hweak as [Hw|[Hw|[]]]; rewrite Hw in Hs;
        cases_in Hs; discriminate Hs.
  - case_bool_decide as Hs; [split; [by left|done]|].
    destruct d; cbn [drawOuts drawName];
      destruct (decide (15 ≤ _)) as [?|?]; try lia;
      first
        [ split; [intros _; right; reflexivity|reflexivity]
        | destruct (_ <=? _)%float; split;
          [discriminate|intros [?|?]; [contradiction|discriminate]
          |discriminate|intros [?|?]; [contradiction|discriminate]] ].
Qed.

Lemma genSpot_decision_table_witness :
  ∃ (spot : Spot) (w' : World PlayingCard),
    genSpot sampleDraws DECISION startWorld = Some (spot, w') ∧
    let sol := solution spot in
    (Sol.bestHandLabel sol ∈ ["High Card"; "One Pair"] →
     Sol.drawLabel sol = "None" → Sol.decision sol = Fold) ∧
    (Sol.decision sol = Raise ↔
     Sol.bestHandLabel sol ∈ strongMadeLabels ∨
     Sol.drawLabel sol = "Combo Draw (Flush + Straight)").
Proof.
  exact (genSpot_decision_table sampleDraws startWorld sampleDraws_range).
Defined.

(** ** What a shuffle costs *)

(** X10: [shuffle] adds exactly one array to the store, the returned
    copy, and draws exactly [n - 1] random numbers on an array of [n ≥ 1]
    elements, none on an empty one; an array of at most one element is
    returned as an equal copy. *)
Theorem shuffle_effects {T : Type} (rnd : nat → Q) (w : World T)
    (arr : nat) (xs : list T) :
  (∀ n, (0 <= rnd n < 1)%Q) →
  arrays w !! arr = Some xs →
  ∃ ys : list T,
    shuffle rnd arr w
    = Some (length (arrays w),
            {| arrays := arrays w ++ [ys];
               drawn := (drawn w + (length xs - 1))%nat |}) ∧
    ys ≡ₚ xs ∧
    ((length xs ≤ 1)%nat → ys = xs).
Proof.
  intros Hrnd Harr.
  destruct (shuffle_Some rnd Hrnd arr w xs Harr) as (ys & Hys & E).
  exists ys. split_and!; [done..|]. intros Hlen.
  destruct xs as [|x [|x' xs]]; simpl in Hlen; [| |lia].
  - by apply Permutation_nil_r in Hys.
  - by apply Permutation_singleton_r in Hys.
Qed.

Lemma shuffle_effects_witness :
  ∃ ys : list Z,
    shuffle sampleDraws 0 {| arrays := [[7]]; drawn := 3 |}
    = Some (1%nat, {| arrays := [[7]] ++ [ys]; drawn := (3 + (1 - 1))%nat |}) ∧
    ys ≡ₚ [7] ∧
    ((length [7] ≤ 1)%nat → ys = [7]).
Proof.
  apply (shuffle_effects sampleDraws {| arrays := [[7]]; drawn := 3 |} 0%nat [7]
           sampleDraws_range).
  reflexivity.
Defined.

(** ** Straight draws without an Ace *)

(** X11: with no Ace among the five cards, the two flags of
    [straightDrawType] are exactly the documented ones: open-ended when
    four held values span three, gutshot when four held values span four
    with one interior value missing. *)
Theorem straightDrawType_without_ace (hole flop : list PlayingCard) :
  (∀ c, c ∈ hole ++ flop → rank c ≠ RA) →
  (oesd (straightDrawType hole flop) = true
   ↔ openEndedOn (hasValue (hole ++ flop))) ∧
  (gutshot (straightDrawType hole flop) = true
   ↔ gutshotOn (hasValue (hole ++ flop))).
Proof. apply straightDrawType_no_ace. Qed.

Lemma straightDrawType_without_ace_witness :
  let hole := [card R5 Spades; card R6 Hearts] in
  let flop := [card R7 Diamonds; card R9 Clubs; card RK Spades] in
  (oesd (straightDrawType hole flop) = true
   ↔ openEndedOn (hasValue (hole ++ flop))) ∧
  (gutshot (straightDrawType hole flop) = true
   ↔ gutshotOn (hasValue (hole ++ flop))).
Proof.
  intros hole flop. apply (straightDrawType_without_ace hole flop).
  intros c Hc. unfold hole, flop in Hc. simpl in Hc.
  repeat (apply elem_of_cons in Hc as [->|Hc]; [discriminate|]).
  by apply elem_of_nil in Hc.
Defined.

(** * Grading *)

Lemma score_points (st : UI.State) :
  let r := (score st).1 in
  passed r
  = bool_decide
      ((if decide (UI.mode st = HAND) then 40
        else if decide (UI.mode st = OUTS) then 55 else 70) ≤ basePoints r) ∧
  gained r
  = basePoints r
    + (if passed r then Z.min 20 ((UI.streak st + 1) * 2) else 0) ∧
  (UI.mode st = HAND → drawOk r = true ∧ outsOk r = true) ∧
  (UI.mode st ≠ DECISION → potOddsOk r = true ∧ decisionOk r = true).
Proof.
  unfold score, basePoints. cbv zeta.
  cbn [fst gained passed bestOk drawOk outsOk potOddsOk decisionOk].
  repeat match goal with
         | |- context [if ?b then 0 + 45 else 0] => destruct b
         | |- context [if ?b then ?x + 15 else ?x] => destruct b eqn:Ed
         | |- context [if ?b then ?x + 20 else ?x] => destruct b eqn:Eo
         | |- context [if ?b then ?x + 10 else ?x] => destruct b eqn:?
         end;
    (split_and!;
     [ f_equal
     | case_bool_decide; lia
     | intros Hm; rewrite ?decide_True in Ed, Eo by exact Hm; split; congruence
     | intros Hm;
       repeat match goal with
              | H : (if decide (UI.mode st ≠ DECISION) then true else _) = false
                |- _ => rewrite decide_True in H by exact Hm; discriminate H
              end; split; reflexivity ]).
Qed.

(** X12: whether a check passes, by mode. In the hand mode every check
    passes, whatever was answered, because the four answers that mode does
    not ask count as right and bring 55 points against a bar of 40. In the
    outs mode a check passes when the best hand is right or both the draw
    and the outs are. In the decision mode it passes when the best hand is
    right and the other four answers bring at least 25 points. *)
Theorem score_pass_rule (st : UI.State) :
  let r := (score st).1 in
  (UI.mode st = HAND → passed r = true) ∧
  (UI.mode st = OUTS →
   passed r = bestOk r || (drawOk r && outsOk r)) ∧
  (UI.mode st = DECISION →
   passed r
   = bestOk r &&
     ((drawOk r && (outsOk r || potOddsOk r || decisionOk r)) ||
      (outsOk r && (potOddsOk r || decisionOk r)))).
Proof.
  destruct (score_points st) as (Hp & _ & Hh & Hd). cbv zeta in *.
  set (r := (score st).1) in *. rewrite Hp. clear Hp. unfold basePoints.
  clearbody r. split_and!; intros Hm; rewrite Hm in *.
  - destruct (Hh eq_refl) as [-> ->]. destruct (Hd ltac:(done)) as [-> ->].
    apply bool_decide_eq_true. simpl. destruct (bestOk r); lia.
  - destruct (Hd ltac:(done)) as [-> ->]. simpl.
    destruct (bestOk r), (drawOk r), (outsOk r); compute_done.
  - simpl.
    destruct (bestOk r), (drawOk r), (outsOk r), (potOddsOk r), (decisionOk r);
      compute_done.
Qed.

Lemma score_pass_rule_witness :
  passed
    (score
       {| UI.mode := HAND;
          UI.spot :=
            {| hole := (card RA Spades, card RK Spades);
               flop := (card RQ Spades, card RJ Spades, card R2 Hearts);
               pot := 0; betToCall := 0;
               solution :=
                 {| Sol.bestHandLabel := "High Card";
                    Sol.drawLabel := "Combo Draw (Flush + Straight)";
                    Sol.outs := 15; Sol.improvementOuts := 6;
                    Sol.potOddsPct := 0; Sol.decision := Call |} |};
          UI.showSolution := false; UI.bestHand := ""; UI.drawType := "";
          UI.outs := None; UI.potOdds := None; UI.decision := "";
          UI.xp := 0; UI.streak := 0; UI.round := 1;
          UI.highContrast := true; UI.last := None |}).1
  = true.
Proof.
  match goal with
  | |- passed (score ?st).1 = true =>
      exact (proj1 (score_pass_rule st) eq_refl)
  end.
Defined.

(** X13: one scoring. With a streak that is not negative, the points
    gained lie between 0 and 120: those of the answers and, on a pass, a
    bonus of twice the new streak, capped at 20. The experience grows by the
    points gained, the streak grows by one on a pass and falls to 0
    otherwise, the solution is shown, and nothing else changes. *)
Theorem score_updates (st : UI.State) :
  0 ≤ UI.streak st →
  let r := (score st).1 in
  let st' := (score st).2 in
  0 ≤ gained r ≤ 120 ∧
  gained r
  = basePoints r + (if passed r then Z.min 20 ((UI.streak st + 1) * 2) else 0) ∧
  UI.xp st' = UI.xp st + gained r ∧
  UI.streak st' = (if passed r then UI.streak st + 1 else 0) ∧
  0 ≤ UI.streak st' ∧
  UI.showSolution st' = true ∧
  (UI.mode st', UI.spot st', UI.round st', UI.last st')
  = (UI.mode st, UI.spot st, UI.round st, UI.last st) ∧
  (UI.bestHand st', UI.drawType st', UI.outs st', UI.potOdds st',
   UI.decision st')
  = (UI.bestHand st, UI.drawType st, UI.outs st, UI.potOdds st,
     UI.decision st).
Proof.
  intros Hs. destruct (score_points st) as (_ & Hg & _). cbv zeta in *.
  set (r := (score st).1) in *.
  assert (UI.xp (score st).2 = UI.xp st + gained r) as Hxp by reflexivity.
  assert (UI.streak (score st).2 = (if passed r then UI.streak st + 1 else 0))
    as Hst by reflexivity.
  split_and!; try reflexivity; try assumption.
  - rewrite Hg. unfold basePoints.
    destruct (bestOk r), (drawOk r), (outsOk r), (potOddsOk r), (decisionOk r),
      (passed r); lia.
  - rewrite Hg. unfold basePoints.
    destruct (bestOk r), (drawOk r), (outsOk r), (potOddsOk r), (decisionOk r),
      (passed r); lia.
  - rewrite Hst. destruct (passed r); lia.
Qed.

Lemma score_updates_witness :
  let r := (score sampleState).1 in
  let st' := (score sampleState).2 in
  0 ≤ gained r ≤ 120 ∧
  gained r
  = basePoints r
    + (if passed r then Z.min 20 ((UI.streak sampleState + 1) * 2) else 0) ∧
  UI.xp st' = UI.xp sampleState + gained r ∧
  UI.streak st' = (if passed r then UI.streak sampleState + 1 else 0) ∧
  0 ≤ UI.streak st' ∧
  UI.showSolution st' = true ∧
  (UI.mode st', UI.spot st', UI.round st', UI.last st')
  = (UI.mode sampleState, UI.spot sampleState, UI.round sampleState,
     UI.last sampleState) ∧
  (UI.bestHand st', UI.drawType st', UI.outs st', UI.potOdds st',
   UI.decision st')
  = (UI.bestHand sampleState, UI.drawType sampleState, UI.outs sampleState,
     UI.potOdds sampleState, UI.decision sampleState).
Proof.
  apply (score_updates sampleState). unfold sampleState. simpl. lia.
Defined.

(** X14: a check never scores twice. Once the solution is shown [onCheck]
    changes nothing; from a state with the solution hidden it scores once,
    records the result and shows the solution, so a second call is idle. *)
Theorem onCheck_scores_once (st : UI.State) :
  onCheck (onCheck st) = onCheck st ∧
  (UI.showSolution st = true → onCheck st = st) ∧
  (UI.showSolution st = false →
   UI.xp (onCheck st) = UI.xp st + gained (score st).1 ∧
   UI.last (onCheck st) = Some (score st).1 ∧
   UI.showSolution (onCheck st) = true).
Proof.
  destruct (UI.showSolution st) eqn:E.
  - assert (onCheck st = st) as Hid by (unfold onCheck; by rewrite E).
    rewrite !Hid. split_and!; [done|done|discriminate].
  - assert (UI.showSolution (score st).2 = true) as Hshow by reflexivity.
    assert (UI.xp (score st).2 = UI.xp st + gained (score st).1) as Hxp
      by reflexivity.
    assert (onCheck st
            = {| UI.mode := UI.mode (score st).2;
                 UI.spot := UI.spot (score st).2;
                 UI.showSolution := UI.showSolution (score st).2;
                 UI.bestHand := UI.bestHand (score st).2;
                 UI.drawType := UI.drawType (score st).2;
                 UI.outs := UI.outs (score st).2;
                 UI.potOdds := UI.potOdds (score st).2;
                 UI.decision := UI.decision (score st).2;
                 UI.xp := UI.xp (score st).2;
                 UI.streak := UI.streak (score st).2;
                 UI.round := UI.round (score st).2;
                 UI.highContrast := UI.highContrast (score st).2;
                 UI.last := Some (score st).1 |}) as Hun.
    { unfold onCheck. rewrite E. by destruct (score st). }
    rewrite !Hun. generalize dependent (score st). intros [r st'] Hshow Hxp _.
    cbn [fst snd] in *. split_and!.
    + unfold onCheck. cbn [UI.showSolution]. by rewrite Hshow.
    + discriminate.
    + intros _. cbn [UI.xp UI.last UI.showSolution]. done.
Qed.

Lemma onCheck_scores_once_witness :
  let st :=
    {| UI.mode := HAND;
       UI.spot :=
         {| hole := (card RA Spades, card RK Spades);
            flop := (card RQ Spades, card RJ Spades, card R2 Hearts);
            pot := 0; betToCall := 0;
            solution :=
              {| Sol.bestHandLabel := "High Card"; Sol.drawLabel := "None";
                 Sol.outs := 0; Sol.improvementOuts := 6;
                 Sol.potOddsPct := 0; Sol.decision := Call |} |};
       UI.showSolution := false; UI.bestHand := "High Card";
       UI.drawType := ""; UI.outs := None; UI.potOdds := None;
       UI.decision := ""; UI.xp := 0; UI.streak := 0; UI.round := 1;
       UI.highContrast := true; UI.last := None |} in
  UI.xp (onCheck st) = 102 ∧ UI.xp (onCheck (onCheck st)) = 102.
Proof.
  intros st. destruct (onCheck_scores_once st) as (Hidem & _ & Hfirst).
  rewrite Hidem. destruct (Hfirst eq_refl) as (-> & _). by vm_compute.
Defined.

(** X15: which best-hand answers are graded right. For an answer among
    the offered hand options (or none) and a solution among them, the answer
    is right when it is the solution, and also when one of the two is
    Straight Flush and the other is Straight or Flush: the containment tests
    of the grader do not tell these apart. No answer is never right. *)
Theorem score_bestOk_options (st : UI.State) :
  UI.bestHand st ∈ "" :: HAND_OPTIONS →
  Sol.bestHandLabel (solution (UI.spot st)) ∈ HAND_OPTIONS →
  bestOk (score st).1 = true ↔
  UI.bestHand st = Sol.bestHandLabel (solution (UI.spot st)) ∨
  (UI.bestHand st ∈ ["Straight"; "Flush"] ∧
   Sol.bestHandLabel (solution (UI.spot st)) = "Straight Flush") ∨
  (UI.bestHand st = "Straight Flush" ∧
   Sol.bestHandLabel (solution (UI.spot st)) ∈ ["Straight"; "Flush"]).
Proof.
  destruct st as [m [ho fl p b [lab dl so io pp dd]] ss bh dt o po de x sk rd hc la].
  unfold HAND_OPTIONS.
  cbn [UI.bestHand UI.spot solution Sol.bestHandLabel].
  intros Hbh Hlab. cases_in Hbh; cases_in Hlab; subst bh lab; compute_done.
Qed.

Lemma score_bestOk_options_witness :
  bestOk
    (score
       {| UI.mode := HAND;
          UI.spot :=
            {| hole := (card R9 Spades, card R8 Spades);
               flop := (card R7 Spades, card R6 Spades, card R5 Spades);
               pot := 0; betToCall := 0;
               solution :=
                 {| Sol.bestHandLabel := "Straight Flush";
                    Sol.drawLabel := "None";
                    Sol.outs := 0; Sol.improvementOuts := 0;
                    Sol.potOddsPct := 0; Sol.decision := Call |} |};
          UI.showSolution := false; UI.bestHand := "Flush"; UI.drawType := "";
          UI.outs := None; UI.potOdds := None; UI.decision := "";
          UI.xp := 0; UI.streak := 0; UI.round := 1;
          UI.highContrast := true; UI.last := None |}).1
  = true.
Proof.
  apply score_bestOk_options; [compute_done..|].
  right. left. split; [compute_done|reflexivity].
Defined.

(** X16: which draw answers are graded right, outside the hand mode. For
    an answer among the offered draw options (or none) and a solution among
    them: with the solution None, the answers None and none at all are
    right; otherwise the solution itself is right, and Flush Draw and the
    combo draw are taken for one another. *)
Theorem score_drawOk_options (st : UI.State) :
  UI.mode st ≠ HAND →
  UI.drawType st ∈ "" :: DRAW_OPTIONS →
  Sol.drawLabel (solution (UI.spot st)) ∈ DRAW_OPTIONS →
  drawOk (score st).1 = true ↔
  (Sol.drawLabel (solution (UI.spot st)) = "None" ∧
   UI.drawType st ∈ [""; "None"]) ∨
  (UI.drawType st ≠ "" ∧
   UI.drawType st = Sol.drawLabel (solution (UI.spot st))) ∨
  (UI.drawType st ∈ ["Flush Draw"; "Combo Draw (Flush + Straight)"] ∧
   Sol.drawLabel (solution (UI.spot st))
   ∈ ["Flush Draw"; "Combo Draw (Flush + Straight)"]).
Proof.
  destruct st as [m [ho fl p b [lab dl so io pp dd]] ss bh dt o po de x sk rd hc la].
  unfold DRAW_OPTIONS.
  cbn [UI.mode UI.drawType UI.spot solution Sol.drawLabel].
  intros Hm Hdt Hdl.
  destruct m; [done|..]; cases_in Hdt; cases_in Hdl; subst dt dl; compute_done.
Qed.

Lemma score_drawOk_options_witness :
  drawOk
    (score
       {| UI.mode := OUTS;
          UI.spot :=
            {| hole := (card RA Spades, card RK Spades);
               flop := (card RQ Spades, card RJ Spades, card R2 Hearts);
               pot := 0; betToCall := 0;
               solution :=
                 {| Sol.bestHandLabel := "High Card";
                    Sol.drawLabel := "Combo Draw (Flush + Straight)";
                    Sol.outs := 15; Sol.improvementOuts := 6;
                    Sol.potOddsPct := 0; Sol.decision := Call |} |};
          UI.showSolution := false; UI.bestHand := "";
          UI.drawType := "Flush Draw";
          UI.outs := None; UI.potOdds := None; UI.decision := "";
          UI.xp := 0; UI.streak := 0; UI.round := 1;
          UI.highContrast := true; UI.last := None |}).1
  = true.
Proof.
  apply score_drawOk_options; [done|compute_done..|].
  right. right. split; compute_done.
Defined.

(** X17: the decision and outs answers in the decision mode. A decision
    among the offered options (or none) is right exactly when it is the
    solution's decision, with no two options taken for one another; an outs
    answer is right exactly when it is given and within one of the
    solution's outs. *)
Theorem score_decisionOk_options (st : UI.State) :
  UI.mode st = DECISION →
  UI.decision st ∈ "" :: DECISION_OPTIONS →
  (decisionOk (score st).1 = true ↔
   UI.decision st = decisionStr (Sol.decision (solution (UI.spot st)))) ∧
  (outsOk (score st).1 = true ↔
   ∃ n, UI.outs st = Some n ∧
        Z.abs (n - Sol.outs (solution (UI.spot st))) ≤ 1).
Proof.
  destruct st as [m [ho fl p b [lab dl so io pp dd]] ss bh dt o po de x sk rd hc la].
  unfold DECISION_OPTIONS.
  cbn [UI.mode UI.decision UI.outs UI.spot solution Sol.decision Sol.outs].
  intros -> Hde. split.
  - cases_in Hde; subst de; destruct dd; compute_done.
  - unfold score. cbv zeta. cbn [fst outsOk UI.mode UI.outs UI.spot solution
                                 Sol.outs].
    rewrite decide_False by done. destruct o as [n|].
    + rewrite bool_decide_eq_true. split; [by exists n|].
      by intros (n' & [= <-] & Hn).
    + split; [done|]. by intros (n' & [=] & _).
Qed.

Lemma score_decisionOk_options_witness :
  let st :=
    {| UI.mode := DECISION;
       UI.spot :=
         {| hole := (card RA Spades, card RK Spades);
            flop := (card RQ Spades, card RJ Spades, card R2 Hearts);
            pot := 40; betToCall := 10;
            solution :=
              {| Sol.bestHandLabel := "High Card";
                 Sol.drawLabel := "Combo Draw (Flush + Straight)";
                 Sol.outs := 15; Sol.improvementOuts := 6;
                 Sol.potOddsPct := 20; Sol.decision := Raise |} |};
       UI.showSolution := false; UI.bestHand := "High Card";
       UI.drawType := "Flush Draw"; UI.outs := Some 14;
       UI.potOdds := Some 20%float;
       UI.decision := "Raise"; UI.xp := 0; UI.streak := 0; UI.round := 1;
       UI.highContrast := true; UI.last := None |} in
  decisionOk (score st).1 = true ∧ outsOk (score st).1 = true.
Proof.
  intros st.
  destruct (score_decisionOk_options st eq_refl ltac:(compute_done))
    as [Hd Ho].
  split; [by apply Hd|]. apply Ho. exists 14. split; [reflexivity|simpl; lia].
Defined.

(** * Multiple-choice sets *)

Lemma uniq_spec (arr : list Z) : NoDup (uniq arr) ∧ ∀ v, v ∈ uniq arr ↔ v ∈ arr.
Proof.
  unfold uniq. split.
  - apply NoDup_foldl_setAdd, NoDup_nil_2.
  - intros v. rewrite elem_of_foldl_setAdd, elem_of_nil. tauto.
Qed.

Lemma uniq_length (arr : list Z) : (length (uniq arr) ≤ length arr)%nat.
Proof.
  unfold uniq. rewrite <- (Nat.add_0_l (length arr)).
  change 0%nat with (length (@nil Z)). generalize (@nil Z).
  induction arr as [|x arr IH]; intros s; simpl; [lia|].
  etrans; [apply IH|]. unfold setAdd. case_decide; [lia|].
  rewrite length_app. simpl. lia.
Qed.

Lemma makeMCQNumbers_elem_of (correct : Z) (deltas : list Z) (min max v : Z) :
  v ∈ makeMCQNumbers correct deltas min max ↔
  v = correct ∨ ∃ d, d ∈ deltas ∧ v = correct + d ∧ min ≤ v ≤ max.
Proof.
  unfold makeMCQNumbers. rewrite elem_of_sortAsc.
  rewrite (proj2 (uniq_spec _)), elem_of_cons, list_elem_of_filter, list_elem_of_fmap.
  split; (intros [?|H]; [by left|right]).
  - destruct H as (Hr & d & -> & Hd). by exists d.
  - destruct H as (d & Hd & -> & Hr). split; [done|]. by exists d.
Qed.

Lemma makeMCQNumbers_length (correct : Z) (deltas : list Z) (min max : Z) :
  (length (makeMCQNumbers correct deltas min max) ≤ S (length deltas))%nat.
Proof.
  unfold makeMCQNumbers. rewrite sortAsc_perm. etrans; [apply uniq_length|].
  simpl. apply le_n_S. etrans; [apply length_filter|]. by rewrite length_fmap.
Qed.

(** X18: the options of a numeric question are strictly increasing (so
    pairwise distinct), there are at most one more than deltas, and a
    number is an option exactly when it is the correct answer or the
    correct answer plus a delta that falls between [min] and [max]; the
    correct answer is an option whether or not it lies in that range. *)
Theorem makeMCQNumbers_options (correct : Z) (deltas : list Z) (min max : Z) :
  StronglySorted Z.lt (makeMCQNumbers correct deltas min max) ∧
  (length (makeMCQNumbers correct deltas min max) ≤ S (length deltas))%nat ∧
  correct ∈ makeMCQNumbers correct deltas min max ∧
  ∀ v, v ∈ makeMCQNumbers correct deltas min max ↔
       v = correct ∨ ∃ d, d ∈ deltas ∧ v = correct + d ∧ min ≤ v ≤ max.
Proof.
  split_and!.
  - apply sortAsc_strict, uniq_spec.
  - apply makeMCQNumbers_length.
  - apply makeMCQNumbers_elem_of. by left.
  - apply makeMCQNumbers_elem_of.
Qed.

(** X19: the outs buttons. In the hand mode there are none and nothing is
    drawn. In the other modes, for every sequence of draws, the buttons are
    a shuffle of all the options of [makeMCQNumbers] (the cut to six never
    drops one): pairwise distinct, at most six, the solution's outs among
    them, every other one a number from 0 to 20 that differs from the
    solution by one of -2, -1, 1, 2, 4. *)
Theorem outsChoices_offer_solution
    (rnd : nat → Q) (mode : Mode) (solOuts : Z) (w : World Z) :
  (∀ n, (0 <= rnd n < 1)%Q) →
  ∃ (ys : list Z) (w' : World Z),
    outsChoices rnd mode solOuts w = Some (ys, w') ∧
    (mode = HAND → ys = [] ∧ w' = w) ∧
    (mode ≠ HAND →
     ys ≡ₚ makeMCQNumbers solOuts [-2; -1; 1; 2; 4] 0 20 ∧
     NoDup ys ∧ (length ys ≤ 6)%nat ∧ solOuts ∈ ys ∧
     ∀ v, v ∈ ys → v ≠ solOuts →
          0 ≤ v ≤ 20 ∧ v - solOuts ∈ [-2; -1; 1; 2; 4]).
Proof.
  intros Hrnd. unfold outsChoices.
  destruct (decide (mode = HAND)) as [Hm|Hm].
  { exists [], w. split_and!; done. }
  set (opts := makeMCQNumbers solOuts [-2; -1; 1; 2; 4] 0 20).
  pose proof (makeMCQNumbers_length solOuts [-2; -1; 1; 2; 4] 0 20) as Hlen.
  fold opts in Hlen. simpl in Hlen.
  set (w1 := {| arrays := arrays w ++ [opts]; drawn := drawn w |}).
  assert (arrays w1 !! length (arrays w) = Some opts) as Hat.
  { simpl. by rewrite lookup_app_r, Nat.sub_diag by lia. }
  destruct (shuffle_Some rnd Hrnd (length (arrays w)) w1 opts Hat)
    as (ys & Hys & E).
  assert (length ys = length opts) as Hl by (by rewrite Hys).
  exists ys. eexists. split.
  { rewrite (bind_Some _ _ w w1 (length (arrays w))) by reflexivity.
    rewrite (bind_Some _ _ _ _ _ E).
    unfold mbind, M_bind, elementsOf. cbn [arrays].
    rewrite lookup_app_r, Nat.sub_diag by lia. simpl.
    unfold mret, M_ret. rewrite take_ge by lia. reflexivity. }
  split; [done|]. intros _. split_and!.
  - done.
  - rewrite Hys. unfold opts, makeMCQNumbers. rewrite sortAsc_perm.
    apply uniq_spec.
  - lia.
  - rewrite Hys. apply makeMCQNumbers_elem_of. by left.
  - intros v Hv Hne. rewrite Hys in Hv.
    apply makeMCQNumbers_elem_of in Hv as [?|(d & Hd & -> & Hr)]; [done|].
    split; [done|]. by replace (solOuts + d - solOuts) with d by lia.
Qed.

Lemma outsChoices_offer_solution_witness :
  ∃ (ys : list Z) (w' : World Z),
    outsChoices sampleDraws OUTS 8 startWorld = Some (ys, w') ∧
    (OUTS = HAND → ys = [] ∧ w' = startWorld) ∧
    (OUTS ≠ HAND →
     ys ≡ₚ makeMCQNumbers 8 [-2; -1; 1; 2; 4] 0 20 ∧
     NoDup ys ∧ (length ys ≤ 6)%nat ∧ 8 ∈ ys ∧
     ∀ v, v ∈ ys → v ≠ 8 →
          0 ≤ v ≤ 20 ∧ v - 8 ∈ [-2; -1; 1; 2; 4]).
Proof.
  exact (outsChoices_offer_solution sampleDraws OUTS 8 startWorld
           sampleDraws_range).
Defined.

(** ** The pot-odds buttons *)






(** * Text of the answers *)

Lemma isWhiteSpace_lowerChar (a : ascii) :
  isWhiteSpace (lowerChar a) = isWhiteSpace a.
Proof. by destruct a as [[] [] [] [] [] [] [] []]. Qed.

Lemma lowerChar_idemp (a : ascii) : lowerChar (lowerChar a) = lowerChar a.
Proof. by destruct a as [[] [] [] [] [] [] [] []]. Qed.

Lemma toLowerCase_idemp (s : string) :
  toLowerCase (toLowerCase s) = toLowerCase s.
Proof.
  induction s as [|a s IH]; [done|]. simpl. by rewrite lowerChar_idemp, IH.
Qed.

Lemma trimStart_toLowerCase (s : string) :
  trimStart (toLowerCase s) = toLowerCase (trimStart s).
Proof.
  induction s as [|a s IH]; [done|]. cbn [toLowerCase trimStart].
  rewrite isWhiteSpace_lowerChar. by destruct (isWhiteSpace a).
Qed.

Lemma trimEnd_toLowerCase (s : string) :
  trimEnd (toLowerCase s) = toLowerCase (trimEnd s).
Proof.
  induction s as [|a s IH]; [done|]. cbn [toLowerCase trimEnd].
  rewrite IH, isWhiteSpace_lowerChar.
  destruct (trimEnd s); [by destruct (isWhiteSpace a)|done].
Qed.

Lemma trimEnd_idemp (s : string) : trimEnd (trimEnd s) = trimEnd s.
Proof.
  induction s as [|a s IH]; [done|]. cbn [trimEnd].
  destruct (trimEnd s) as [|a' t] eqn:E.
  - destruct (isWhiteSpace a) eqn:Ea; [done|]. cbn [trimEnd]. by rewrite Ea.
  - cbn [trimEnd] in IH |- *. by rewrite IH.
Qed.

Lemma trimStart_head (s : string) :
  match trimStart s with
  | EmptyString => True
  | String a _ => isWhiteSpace a = false
  end.
Proof.
  induction s as [|a s IH]; [done|]. cbn [trimStart].
  by destruct (isWhiteSpace a) eqn:E.
Qed.

Lemma trim_idemp (s : string) : trim (trim s) = trim s.
Proof.
  unfold trim. pose proof (trimStart_head s) as Hh.
  destruct (trimStart s) as [|a u]; [done|].
  assert (trimStart (trimEnd (String a u)) = trimEnd (String a u)) as ->.
  { cbn [trimEnd]. rewrite Hh.
    destruct (trimEnd u); cbn [trimStart]; by rewrite Hh. }
  apply trimEnd_idemp.
Qed.

Lemma trim_toLowerCase (s : string) :
  trim (toLowerCase s) = toLowerCase (trim s).
Proof. unfold trim. by rewrite trimStart_toLowerCase, trimEnd_toLowerCase. Qed.

(** X21: [normalize] is idempotent, and trimming and lowering commute;
    hence an answer and its normal form are graded alike by [score]. *)
Theorem normalize_idempotent (s : string) :
  normalize (normalize s) = normalize s ∧
  normalize s = trim (toLowerCase s) ∧
  ∀ st : UI.State,
    UI.bestHand st = s →
    (score st).1
    = (score {| UI.mode := UI.mode st; UI.spot := UI.spot st;
                UI.showSolution := UI.showSolution st;
                UI.bestHand := normalize s; UI.drawType := UI.drawType st;
                UI.outs := UI.outs st; UI.potOdds := UI.potOdds st;
                UI.decision := UI.decision st; UI.xp := UI.xp st;
                UI.streak := UI.streak st; UI.round := UI.round st;
                UI.highContrast := UI.highContrast st;
                UI.last := UI.last st |}).1.
Proof.
  assert (normalize (normalize s) = normalize s) as Hidem.
  { unfold normalize.
    by rewrite trim_toLowerCase, trim_idemp, toLowerCase_idemp. }
  split_and!; [done|unfold normalize; by rewrite trim_toLowerCase|].
  intros st <-. unfold score.
  cbn [fst UI.mode UI.spot UI.bestHand UI.drawType UI.outs UI.potOdds
       UI.decision UI.streak].
  by rewrite Hidem.
Qed.

Lemma normalize_idempotent_witness :
  let st :=
    {| UI.mode := OUTS;
       UI.spot :=
         {| hole := (card RA Spades, card RK Spades);
            flop := (card RQ Spades, card RJ Spades, card R2 Hearts);
            pot := 0; betToCall := 0;
            solution :=
              {| Sol.bestHandLabel := "High Card";
                 Sol.drawLabel := "Combo Draw (Flush + Straight)";
                 Sol.outs := 15; Sol.improvementOuts := 6;
                 Sol.potOddsPct := 0; Sol.decision := Call |} |};
       UI.showSolution := false; UI.bestHand := "  High CARD ";
       UI.drawType := "Flush Draw"; UI.outs := Some 14; UI.potOdds := None;
       UI.decision := ""; UI.xp := 250; UI.streak := 12; UI.round := 4;
       UI.highContrast := true; UI.last := None |} in
  (score st).1
  = (score {| UI.mode := UI.mode st; UI.spot := UI.spot st;
              UI.showSolution := UI.showSolution st;
              UI.bestHand := normalize "  High CARD ";
              UI.drawType := UI.drawType st;
              UI.outs := UI.outs st; UI.potOdds := UI.potOdds st;
              UI.decision := UI.decision st; UI.xp := UI.xp st;
              UI.streak := UI.streak st; UI.round := UI.round st;
              UI.highContrast := UI.highContrast st;
              UI.last := UI.last st |}).1.
Proof.
  intros st.
  exact (proj2 (proj2 (normalize_idempotent "  High CARD ")) st eq_refl).
Defined.

(** * Level *)

(** X22: with experience and streak not negative, the level and the
    progress shown decompose the experience ([xp = (level - 1) * 100 +
    levelProgress] with the progress below 100), and a check never lowers
    the level and raises it by at most two. *)
Theorem score_level (st : UI.State) :
  0 ≤ UI.xp st → 0 ≤ UI.streak st →
  UI.xp st = (level st - 1) * 100 + levelProgress st ∧
  0 ≤ levelProgress st < 100 ∧
  1 ≤ level st ∧
  level st ≤ level (score st).2 ≤ level st + 2.
Proof.
  intros Hxp Hs. unfold level, levelProgress.
  destruct (score_points st) as (_ & Hg & _). cbv zeta in Hg.
  assert (UI.xp (score st).2 = UI.xp st + gained (score st).1) as ->
    by reflexivity.
  assert (0 ≤ gained (score st).1 ≤ 120) as Hr.
  { rewrite Hg. unfold basePoints.
    destruct (bestOk _), (drawOk _), (outsOk _), (potOddsOk _),
      (decisionOk _), (passed _); lia. }
  generalize dependent (gained (score st).1). intros g _ Hr.
  rewrite Z.rem_mod_nonneg by lia.
  pose proof (Z.div_mod (UI.xp st) 100 ltac:(lia)).
  pose proof (Z.mod_pos_bound (UI.xp st) 100 ltac:(lia)).
  pose proof (Z.div_pos (UI.xp st) 100 Hxp ltac:(lia)).
  split_and!; try lia.
  - apply Z.add_le_mono_r, Z.div_le_mono; lia.
  - assert ((UI.xp st + g) `div` 100 ≤ (UI.xp st + 200) `div` 100)
      by (apply Z.div_le_mono; lia).
    replace (UI.xp st + 200) with (UI.xp st + 2 * 100) in * by lia.
    rewrite Z.div_add in * by lia. lia.
Qed.

Lemma score_level_witness :
  let st :=
    {| UI.mode := OUTS;
       UI.spot :=
         {| hole := (card RA Spades, card RK Spades);
            flop := (card RQ Spades, card RJ Spades, card R2 Hearts);
            pot := 0; betToCall := 0;
            solution :=
              {| Sol.bestHandLabel := "High Card";
                 Sol.drawLabel := "Combo Draw (Flush + Straight)";
                 Sol.outs := 15; Sol.improvementOuts := 6;
                 Sol.potOddsPct := 0; Sol.decision := Call |} |};
       UI.showSolution := false; UI.bestHand := "High Card";
       UI.drawType := "Flush Draw"; UI.outs := Some 14; UI.potOdds := None;
       UI.decision := ""; UI.xp := 299; UI.streak := 12; UI.round := 4;
       UI.highContrast := true; UI.last := None |} in
  UI.xp st = (level st - 1) * 100 + levelProgress st ∧
  0 ≤ levelProgress st < 100 ∧
  1 ≤ level st ∧
  level st ≤ level (score st).2 ≤ level st + 2.
Proof.
  intros st. apply (score_level st); simpl; lia.
Defined.

(** * A new spot *)


